(** * super-regex: regular-expression matching under a deadline

    A shallow embedding of [src/functionTimeout.ts] and [src/index.ts].

    The two source files sit on top of collaborators that are not part of the
    repository: the JavaScript number and exception model, [node:vm]
    (the isolation layer that enforces the deadline), the regular-expression
    engine of ECMAScript, [structuredClone] and the [time-span] stopwatch.
    They are modelled first, each after its published contract, in the
    modules [JS], [NodeVM] and [RegExpEngine].  The repository's own
    functions follow in [FunctionTimeout] and [SuperRegex], one definition
    per source function, with the source's names. *)

From Stdlib Require Import ZArith QArith Qround String Ascii List Bool Lia Sorted.
Import ListNotations.

Close Scope Q_scope.
Local Open Scope string_scope.

(* ------------------------------------------------------------------ *)
(** * JavaScript values the program computes with *)
(* ------------------------------------------------------------------ *)

Module JS.

(** The numbers held by [timeout] and [matchTimeout]: a whole number of
    milliseconds, or [Number.POSITIVE_INFINITY] (their default).  The
    development is about callers that pass such values; a fraction, [NaN]
    or [-Infinity] has no counterpart here.  [Finite z] stands for the
    double of value [z]; arithmetic on it rounds as doubles do
    ([to_double]). *)
Inductive number : Type :=
| Finite (ms : Z)
| PosInfinity.

Definition number_eqb (a b : number) : bool :=
  match a, b with
  | Finite x, Finite y => Z.eqb x y
  | PosInfinity, PosInfinity => true
  | _, _ => false
  end.

(** [Math.min] on two such numbers. *)
Definition Math_min (a b : number) : number :=
  match a, b with
  | Finite x, Finite y => Finite (Z.min x y)
  | Finite x, PosInfinity => Finite x
  | PosInfinity, Finite y => Finite y
  | PosInfinity, PosInfinity => PosInfinity
  end.

(** The double nearest to an integer, ties to even: an integer of magnitude
    below 2^53 is a double; above, a double keeps the 53 leading bits. *)
Definition to_double (z : Z) : Z :=
  let a := Z.abs z in
  if (a <? 2 ^ 53)%Z then z
  else
    let e := (Z.log2 a - 52)%Z in
    let q := (a / 2 ^ e)%Z in
    let r := (a mod 2 ^ e)%Z in
    let half := (2 ^ (e - 1))%Z in
    let q' :=
      if (r <? half)%Z then q
      else if (half <? r)%Z then (q + 1)%Z
      else if Z.even q then q else (q + 1)%Z in
    (Z.sgn z * q' * 2 ^ e)%Z.

(** [a - k] for a finite [k], as doubles subtract: the exact difference
    rounded to the nearest double; IEEE-754 has [Infinity - k = Infinity]. *)
Definition number_sub (a : number) (k : Z) : number :=
  match a with
  | Finite x => Finite (to_double (x - k))
  | PosInfinity => PosInfinity
  end.

(** [Math.ceil] of a stopwatch reading (a rational number of milliseconds). *)
Definition Math_ceil (q : Q) : Z := Qceiling q.

(** A thrown value.  Only the [code] property is ever inspected by the
    program ([error?.code]); [Nullish] stands for a thrown [null] or
    [undefined], on which [?.] yields [undefined]. *)
Inductive thrown : Type :=
| Nullish
| ErrorObject (name : string) (code : option string) (message : string).

(** How a call ends: it returns, it throws, or it never comes back. *)
Inductive completion (A : Type) : Type :=
| Normal (a : A)
| Throw (e : thrown)
| Hang.

Arguments Normal {A} a.
Arguments Throw {A} e.
Arguments Hang {A}.

Definition TypeError (message : string) : thrown :=
  ErrorObject "TypeError" None message.

End JS.
Export JS.

(* ------------------------------------------------------------------ *)
(** * node:vm, the isolation layer *)
(* ------------------------------------------------------------------ *)

Module NodeVM.

(** One execution of a function body: the wall-clock time it needs when
    nobody interrupts it, and how it ends.  [result = Hang] is a body that
    never finishes. *)
Record run (V : Type) : Type := mkRun {
  took : Q;
  result : completion V
}.
Arguments mkRun {V} took result.
Arguments took {V} r.
Arguments result {V} r.

(** The sandbox object handed to [script.runInNewContext].  [None] in
    [returnValue] is JavaScript's [undefined] (an unset property reads as
    [undefined] too).  [invocations] is a ghost history: the [timeout]
    option of every run requested on this context, oldest first. *)
Record context (V : Type) : Type := mkContext {
  functionToRun : option (unit -> run (option V));
  returnValue : option V;
  invocations : list (option number)
}.
Arguments mkContext {V} functionToRun returnValue invocations.
Arguments functionToRun {V} c.
Arguments returnValue {V} c.
Arguments invocations {V} c.

(** [vm.createContext()] *)
Definition createContext {V : Type} : context V :=
  mkContext None None [].

Definition ERR_SCRIPT_EXECUTION_TIMEOUT : thrown :=
  ErrorObject "Error" (Some "ERR_SCRIPT_EXECUTION_TIMEOUT")
              "Script execution timed out.".

Definition ERR_OUT_OF_RANGE : thrown :=
  ErrorObject "RangeError" (Some "ERR_OUT_OF_RANGE")
              "The value of options.timeout is out of range.".

Definition ReferenceError (message : string) : thrown :=
  ErrorObject "ReferenceError" None message.

(** The [timeout] option "must be a strictly positive integer" (Node's
    documentation of [script.runInNewContext]); the implementation checks it
    as an unsigned 32-bit value.  [undefined] switches the deadline off. *)
Definition timeout_in_range (timeout : option number) : bool :=
  match timeout with
  | None => true
  | Some (Finite t) => (1 <=? t)%Z && (t <=? 4294967295)%Z
  | Some PosInfinity => false
  end.

(** Has a body that needs [d] milliseconds overrun the deadline? *)
Definition breached (timeout : option number) (d : Q) : bool :=
  match timeout with
  | None => false
  | Some (Finite t) => negb (Qle_bool d (inject_Z t))
  | Some PosInfinity => false
  end.

(** [script.runInNewContext(context, {timeout})] for the one script of the
    program, [returnValue = functionToRun()]. *)
Definition runInNewContext {V : Type} (context0 : context V)
    (timeout : option number) : completion unit * context V :=
  let context1 :=
    mkContext (functionToRun context0) (returnValue context0)
              (invocations context0 ++ [timeout]) in
  if negb (timeout_in_range timeout) then (Throw ERR_OUT_OF_RANGE, context1)
  else
    match functionToRun context1 with
    | None => (Throw (ReferenceError "functionToRun is not defined"), context1)
    | Some f =>
        let r := f tt in
        match result r with
        | Hang =>
            match timeout with
            | Some _ => (Throw ERR_SCRIPT_EXECUTION_TIMEOUT, context1)
            | None => (Hang, context1)
            end
        | Normal v =>
            if breached timeout (took r)
            then (Throw ERR_SCRIPT_EXECUTION_TIMEOUT, context1)
            else (Normal tt,
                  mkContext (functionToRun context1) v (invocations context1))
        | Throw e =>
            if breached timeout (took r)
            then (Throw ERR_SCRIPT_EXECUTION_TIMEOUT, context1)
            else (Throw e, context1)
        end
    end.

End NodeVM.
Export NodeVM.

(* ------------------------------------------------------------------ *)
(** * src/functionTimeout.ts *)
(* ------------------------------------------------------------------ *)

Module FunctionTimeout.

Section Wrapper.
Context {A V : Type}.

(** [functionTimeout(function_, {timeout, context})] returns
    [wrappedFunction]; the context it closes over is threaded through the
    calls of the wrapper ([createContext] when the option is left out).
    The [name] property the source also defines on the wrapper is not
    modelled. *)
Definition functionTimeout (function_ : A -> run (option V))
    (timeout : option number)
    : A -> context V -> completion (option V) * context V :=
  fun arguments_ context0 =>
    (* context.functionToRun = () => function_(...arguments_); *)
    let context1 :=
      mkContext (Some (fun _ : unit => function_ arguments_))
                (returnValue context0) (invocations context0) in
    (* script.runInNewContext(context, { timeout }); *)
    match runInNewContext context1 timeout with
    | (Normal _, context2) =>
        (* return context.returnValue; *)
        (Normal (returnValue context2), context2)
    | (Throw e, context2) => (Throw e, context2)
    | (Hang, context2) => (Hang, context2)
    end.

End Wrapper.

(** [error?.code === "ERR_SCRIPT_EXECUTION_TIMEOUT"] *)
Definition isTimeoutError (error : thrown) : bool :=
  match error with
  | ErrorObject _ (Some code) _ => String.eqb code "ERR_SCRIPT_EXECUTION_TIMEOUT"
  | _ => false
  end.

End FunctionTimeout.
Export FunctionTimeout.

(* ------------------------------------------------------------------ *)
(** * The regular-expression engine (ECMAScript, section 22.2) *)
(* ------------------------------------------------------------------ *)

Module RegExpEngine.

(** What the compiled pattern answers when it is tried at one position of
    the subject: how many code units it matched there (the end index is the
    position plus [matched]), the captures of the unnamed groups, and the
    [groups] object of the named ones ([None] when the pattern has none). *)
Record submatch : Type := mkSubmatch {
  matched : nat;
  captures : list (option string);
  named : option (list (string * option string))
}.

(** The compiled pattern, [[RegExpMatcher]]: subject, position, answer. *)
Definition matcher : Type := string -> nat -> option submatch.

(** A RegExp object.  [lastIndex] is its only mutable property.  Patterns
    are taken without the [u]/[v] flag, so AdvanceStringIndex adds one. *)
Record RegExp : Type := mkRegExp {
  pattern : matcher;
  global : bool;
  sticky : bool;
  lastIndex : nat
}.

Definition set_lastIndex (i : nat) (R : RegExp) : RegExp :=
  mkRegExp (pattern R) (global R) (sticky R) i.

(** The array [exec] returns: [result[0]], [result.slice(1)],
    [result.index], [result.input] and [result.groups]. *)
Record ExecArray : Type := mkExecArray {
  exec_0 : string;
  exec_slice_1 : list (option string);
  exec_index : nat;
  exec_input : string;
  exec_groups : option (list (string * option string))
}.

(** The first position from [i] on, [fuel] positions further at most, at
    which the pattern matches. *)
Fixpoint search (m : matcher) (str : string) (fuel : nat) (i : nat)
    : option (nat * submatch) :=
  match m str i with
  | Some r => Some (i, r)
  | None =>
      match fuel with
      | O => None
      | S fuel' => search m str fuel' (S i)
      end
  end.

(** Where the next match starts: at [i] exactly for a sticky regex, at the
    first position from [i] to the end of the subject otherwise. *)
Definition locate (R : RegExp) (str : string) (i : nat)
    : option (nat * submatch) :=
  if sticky R
  then match pattern R str i with Some r => Some (i, r) | None => None end
  else search (pattern R) str (String.length str - i) i.

Definition make_ExecArray (str : string) (i : nat) (r : submatch) : ExecArray :=
  mkExecArray (String.substring i (matched r) str) (captures r) i str (named r).

(** RegExpBuiltinExec(R, S): the result ([None] is [null]) and the object
    afterwards. *)
Definition RegExpBuiltinExec (R : RegExp) (str : string)
    : option ExecArray * RegExp :=
  let moving := global R || sticky R in
  let start := if moving then lastIndex R else O in
  let reset := if moving then set_lastIndex O R else R in
  if (String.length str <? start)%nat then (None, reset)
  else
    match locate R str start with
    | None => (None, reset)
    | Some (i, r) =>
        (Some (make_ExecArray str i r),
         if moving then set_lastIndex (i + matched r) R else R)
    end.

(** [RegExp.prototype.exec] and [RegExp.prototype.test] *)
Definition exec (R : RegExp) (str : string) : option ExecArray * RegExp :=
  RegExpBuiltinExec R str.

Definition test (R : RegExp) (str : string) : bool * RegExp :=
  match RegExpBuiltinExec R str with
  | (Some _, R') => (true, R')
  | (None, R') => (false, R')
  end.

(** [structuredClone(regex)]: a new object with the same source and flags;
    "the lastIndex property is not preserved" (HTML, StructuredSerialize). *)
Definition structuredClone (R : RegExp) : RegExp := set_lastIndex O R.

(** The %RegExpStringIterator% object that [matchAll] returns. *)
Record RegExpStringIterator : Type := mkIterator {
  iterating : RegExp;
  iterated : string;
  finished : bool
}.

(** An iterator result [{value, done}]. *)
Record IteratorResult : Type := mkResult {
  value : option ExecArray;
  done : bool
}.

(** [String.prototype.matchAll(regexp)]: a TypeError when the [g] flag is
    missing; otherwise a fresh RegExp with the same source and flags whose
    [lastIndex] is copied from the argument, wrapped in an iterator. *)
Definition matchAll (str : string) (regexp : RegExp)
    : completion RegExpStringIterator :=
  if global regexp
  then Normal (mkIterator (set_lastIndex (lastIndex regexp) regexp) str false)
  else Throw (TypeError
         "String.prototype.matchAll called with a non-global RegExp argument").

(** %RegExpStringIteratorPrototype%.next() for a global regex: after an
    empty match [lastIndex] is moved one further. *)
Definition next (it : RegExpStringIterator)
    : IteratorResult * RegExpStringIterator :=
  if finished it then (mkResult None true, it)
  else
    match RegExpBuiltinExec (iterating it) (iterated it) with
    | (None, R') => (mkResult None true, mkIterator R' (iterated it) true)
    | (Some a, R') =>
        let R'' :=
          if (String.length (exec_0 a) =? 0)%nat
          then set_lastIndex (S (lastIndex R')) R'
          else R' in
        (mkResult (Some a) false, mkIterator R'' (iterated it) false)
    end.

End RegExpEngine.
Export RegExpEngine.

(* ------------------------------------------------------------------ *)
(** * src/index.ts *)
(* ------------------------------------------------------------------ *)

Module SuperRegex.

Record Match : Type := mkMatch {
  match_ : string;
  index : nat;
  groups : list (option string);
  namedGroups : list (string * option string);
  input : string
}.

Definition resultToMatch (result : ExecArray) : Match :=
  mkMatch (exec_0 result)
          (exec_index result)
          (exec_slice_1 result)
          (match exec_groups result with Some g => g | None => [] end)
          (exec_input result).

(** What [resultToMatch(undefined)] and a destructuring of [undefined]
    throw. *)
Definition undefined_access : thrown :=
  TypeError "Cannot read properties of undefined".

(** [isMatch(regex, string, {timeout})].  [d] is the wall-clock time the
    engine needs for this evaluation.  The second component is the caller's
    regex object after the call: the only operation applied to it is
    [structuredClone], which reads it; [test] works on the clone. *)
Definition isMatch (regex : RegExp) (string_ : string)
    (timeout : option number) (d : Q) : completion (option bool) * RegExp :=
  let body := fun _ : unit =>
    let clone := structuredClone regex in
    mkRun d (Normal (Some (fst (test clone string_)))) in
  match functionTimeout body timeout tt createContext with
  | (Normal v, _) => (Normal v, regex)
  | (Throw error, _) =>
      if isTimeoutError error then (Normal (Some false), regex)
      else (Throw error, regex)
  | (Hang, _) => (Hang, regex)
  end.

(** [firstMatch(regex, string, {timeout})]; [None] is [undefined]. *)
Definition firstMatch (regex : RegExp) (string_ : string)
    (timeout : option number) (d : Q) : completion (option Match) * RegExp :=
  let body := fun _ : unit =>
    let clone := structuredClone regex in
    mkRun d (Normal (Some (fst (exec clone string_)))) in
  match functionTimeout body timeout tt createContext with
  | (Normal result, _) =>
      match result with
      | Some None => (Normal None, regex)
      | Some (Some a) => (Normal (Some (resultToMatch a)), regex)
      | None => (Throw undefined_access, regex)
      end
  | (Throw error, _) =>
      if isTimeoutError error then (Normal None, regex)
      else (Throw error, regex)
  | (Hang, _) => (Hang, regex)
  end.

(** The options object of [matches]; a property left out is [None]. *)
Record MatchesOptions : Type := mkOptions {
  opt_timeout : option number;
  opt_matchTimeout : option number
}.

Definition no_options : MatchesOptions := mkOptions None None.

(** The object [matches] returns, that is the variables its generator
    method closes over.  [timeout] is the one the generator assigns to. *)
Record Iterable : Type := mkIterable {
  regex : RegExp;
  string_ : string;
  timeout : number;
  matchTimeout : number
}.

Definition set_timeout (t : number) (it : Iterable) : Iterable :=
  mkIterable (regex it) (string_ it) t (matchTimeout it).

Definition usage_error : thrown :=
  ErrorObject "Error" None
    "The regex must have the global flag, otherwise, use `firstMatch()` instead".

Definition matches (regex : RegExp) (string_ : string)
    (options : MatchesOptions) : completion Iterable :=
  let timeout :=
    match opt_timeout options with Some t => t | None => PosInfinity end in
  let matchTimeout :=
    match opt_matchTimeout options with Some t => t | None => PosInfinity end in
  if negb (global regex) then Throw usage_error
  else Normal (mkIterable regex string_ timeout matchTimeout).

(** A generator object made by [[Symbol.iterator]()]: not started yet,
    suspended at the [yield] with its cursor [matches2], or completed. *)
Inductive Generator : Type :=
| SuspendedStart
| SuspendedYield (matches2 : RegExpStringIterator)
| Completed.

(** [iterable[Symbol.iterator]()] *)
Definition Symbol_iterator (it : Iterable) : Generator := SuspendedStart.

(** What the environment contributes to one turn of the loop: the time the
    engine needs to advance the cursor, and what the stopwatch [end()]
    reads once [nextMatch()] is back. *)
Record sample : Type := mkSample {
  work : Q;
  elapsed : Q
}.

(** One call of the generator's [next()]: what it returns ([Some m] for
    [{value: m, done: false}], [None] for [{done: true}]), the closure and
    the generator afterwards, and the [timeout] options handed to the
    isolation layer meanwhile. *)
Record Step : Type := mkStep {
  returned : completion (option Match);
  closure : Iterable;
  generator : Generator;
  requested : list (option number)
}.

(** The [timeout] option of the loop body. *)
Definition step_timeout (timeout matchTimeout : number) : option number :=
  if negb (number_eqb timeout PosInfinity)
     || negb (number_eqb matchTimeout PosInfinity)
  then Some (Math_min timeout matchTimeout)
  else None.

(** The [catch] clause. *)
Definition catch_clause (error : thrown) (it : Iterable)
    (asked : list (option number)) : Step :=
  if isTimeoutError error then mkStep (Normal None) it Completed asked
  else mkStep (Throw error) it Completed asked.

(** One turn of [while (true)], up to the [yield], the [break] or the
    exception. *)
Definition loop_turn (w : sample) (it : Iterable)
    (matches2 : RegExpStringIterator) : Step :=
  let nextMatch :=
    functionTimeout
      (fun _ : unit => mkRun (work w) (Normal (Some (next matches2))))
      (step_timeout (timeout it) (matchTimeout it)) in
  (* const end = timeSpan(); const { value, done } = nextMatch(); *)
  match nextMatch tt createContext with
  | (Normal None, ctx) => catch_clause undefined_access it (invocations ctx)
  | (Normal (Some (result, matches2')), ctx) =>
      (* timeout -= Math.ceil(end()); *)
      let it' :=
        set_timeout (number_sub (timeout it) (Math_ceil (elapsed w))) it in
      if done result then mkStep (Normal None) it' Completed (invocations ctx)
      else
        match value result with
        | Some v =>
            mkStep (Normal (Some (resultToMatch v))) it'
                   (SuspendedYield matches2') (invocations ctx)
        | None => catch_clause undefined_access it' (invocations ctx)
        end
  | (Throw error, ctx) => catch_clause error it (invocations ctx)
  | (Hang, ctx) => mkStep Hang it (SuspendedYield matches2) (invocations ctx)
  end.

(** [generator.next()] *)
Definition generator_next (w : sample) (it : Iterable) (g : Generator)
    : Step :=
  match g with
  | SuspendedStart =>
      (* const matches2 = string.matchAll(regex); *)
      match matchAll (string_ it) (regex it) with
      | Normal matches2 => loop_turn w it matches2
      | Throw error => catch_clause error it []
      | Hang => mkStep Hang it SuspendedStart []
      end
  | SuspendedYield matches2 => loop_turn w it matches2
  | Completed => mkStep (Normal None) it Completed []
  end.

(** A consumer that pulls until the sequence is over, as [[...iterable]] or
    [for...of] do: the matches it received, how the sequence ended ([None]
    when [fuel] calls of [next()] were not enough to see the end), the
    closure afterwards, and every [timeout] option the isolation layer was
    handed.  [clock n] is the environment's contribution to the [n]-th call
    of [next()]. *)
Record Pulled : Type := mkPulled {
  yielded : list Match;
  ending : option (completion unit);
  after : Iterable;
  deadlines : list (option number)
}.

Fixpoint pull (fuel : nat) (clock : nat -> sample) (n : nat)
    (it : Iterable) (g : Generator) : Pulled :=
  match fuel with
  | O => mkPulled [] None it []
  | S fuel' =>
      let st := generator_next (clock n) it g in
      match returned st with
      | Normal (Some m) =>
          let rest := pull fuel' clock (S n) (closure st) (generator st) in
          mkPulled (m :: yielded rest) (ending rest) (after rest)
                   (requested st ++ deadlines rest)
      | Normal None =>
          mkPulled [] (Some (Normal tt)) (closure st) (requested st)
      | Throw error =>
          mkPulled [] (Some (Throw error)) (closure st) (requested st)
      | Hang => mkPulled [] (Some Hang) (closure st) (requested st)
      end
  end.

(** [[...iterable]], with enough calls of [next()] for any subject: every
    yield moves the cursor at least one position on. *)
Definition spread (clock : nat -> sample) (n : nat) (it : Iterable) : Pulled :=
  pull (String.length (string_ it) + 2) clock n it (Symbol_iterator it).

End SuperRegex.
Export SuperRegex.

(* ------------------------------------------------------------------ *)
(** * A small pattern language, for concrete regexes *)
(* ------------------------------------------------------------------ *)

Module Pattern.

(** Patterns without groups or assertions: a character class, [ab], [a|b],
    greedy [a*] and the empty pattern. *)
Inductive re : Type :=
| Class (p : ascii -> bool)
| Seq (a b : re)
| Alt (a b : re)
| Star (a : re)
| Empty.

Definition Plus (a : re) : re := Seq a (Star a).

(** Backtracking matcher in continuation style, as ECMAScript specifies it:
    [k] is what has to match after [r].  An iteration of [a*] that consumes
    nothing is rejected, so [a*] runs at most once per remaining character. *)
Fixpoint backtrack (r : re) (s : list ascii)
    (k : list ascii -> option (list ascii)) : option (list ascii) :=
  match r with
  | Class p =>
      match s with
      | c :: s' => if p c then k s' else None
      | [] => None
      end
  | Seq a b => backtrack a s (fun s' => backtrack b s' k)
  | Alt a b =>
      match backtrack a s k with
      | Some rest => Some rest
      | None => backtrack b s k
      end
  | Star a =>
      (fix iterate (n : nat) (s : list ascii) : option (list ascii) :=
         match n with
         | O => k s
         | S n' =>
             match backtrack a s (fun s' =>
                              if (List.length s' <? List.length s)%nat
                              then iterate n' s' else None) with
             | Some rest => Some rest
             | None => k s
             end
         end) (List.length s) s
  | Empty => k s
  end.

Definition compile (r : re) : matcher :=
  fun str i =>
    if (String.length str <? i)%nat then None
    else
      match backtrack r (skipn i (list_ascii_of_string str)) (fun rest => Some rest) with
      | Some rest =>
          Some (mkSubmatch (String.length str - i - List.length rest) [] None)
      | None => None
      end.

Definition digit (c : ascii) : bool :=
  (48 <=? nat_of_ascii c)%nat && (nat_of_ascii c <=? 57)%nat.

Definition char (c : ascii) : ascii -> bool := Ascii.eqb c.

(** [new RegExp(source, "g")] and [new RegExp(source)] *)
Definition global_regex (r : re) : RegExp := mkRegExp (compile r) true false 0.
Definition plain_regex (r : re) : RegExp := mkRegExp (compile r) false false 0.

End Pattern.



(* ------------------------------------------------------------------ *)
(** * What the specification says, in its own words *)
(* ------------------------------------------------------------------ *)

Module Spec.

(** "The effective per-step deadline is min(remaining, matchTimeout) when
    either is finite, else unbounded."  [None] is the unbounded deadline. *)
Definition effective_deadline (remaining matchTimeout : number)
    : option number :=
  match remaining, matchTimeout with
  | Finite r, Finite m => Some (Finite (Z.min r m))
  | Finite r, PosInfinity => Some (Finite r)
  | PosInfinity, Finite m => Some (Finite m)
  | PosInfinity, PosInfinity => None
  end.

(** "Subtract the elapsed (rounded up to whole milliseconds) from remaining,
    only when remaining is finite." *)
Definition charge (remaining : number) (elapsed : Q) : number :=
  match remaining with
  | Finite r => Finite (r - Qceiling elapsed)
  | PosInfinity => PosInfinity
  end.

(** "A plain exhaustive scan of that pattern over that string": from
    position [i] on, take the next match, continue behind it (one position
    further after an empty match), until no match is left.  A subject of [n]
    characters has [n + 1] positions, which bounds the number of matches. *)
Definition behind (str : string) (j : nat) (r : submatch) : nat :=
  if (String.length (String.substring j (matched r) str) =? 0)%nat
  then S (j + matched r) else j + matched r.

Fixpoint forward_scan (fuel : nat) (R : RegExp) (str : string) (i : nat)
    : list ExecArray :=
  match fuel with
  | O => []
  | S fuel' =>
      if (String.length str <? i)%nat then []
      else
        match locate R str i with
        | None => []
        | Some (j, r) =>
            make_ExecArray str j r :: forward_scan fuel' R str (behind str j r)
        end
  end.

Definition plain_scan (R : RegExp) (str : string) : list ExecArray :=
  forward_scan (String.length str + 1) R str (lastIndex R).

(** The stopwatch readings of the turns [n], [n+1], ..., [n+m-1], each
    rounded up. *)
Fixpoint charged (clock : nat -> sample) (n m : nat) : Z :=
  match m with
  | O => 0%Z
  | S m' => (Qceiling (elapsed (clock n)) + charged clock (S n) m')%Z
  end.

(** [a <= b] on milliseconds-or-infinity. *)
Definition number_le (a b : number) : Prop :=
  match a, b with
  | Finite x, Finite y => (x <= y)%Z
  | _, PosInfinity => True
  | PosInfinity, Finite _ => False
  end.

End Spec.
Export Spec.

(** The [code] property of a thrown value, when it is a string. *)
Definition code_of (e : thrown) : option string :=
  match e with
  | ErrorObject _ c _ => c
  | Nullish => None
  end.

Definition message_of (e : thrown) : string :=
  match e with
  | ErrorObject _ _ m => m
  | Nullish => ""
  end.

(** Does [needle] occur in [hay]? *)
Fixpoint mentions (needle hay : string) : bool :=
  String.prefix needle hay ||
  match hay with
  | EmptyString => false
  | String _ hay' => mentions needle hay'
  end.

(** Can the guarded body run to its end: the isolation layer accepts the
    [timeout] option and a body that needs [d] milliseconds stays within it. *)
Definition completes (timeout : option number) (d : Q) : bool :=
  timeout_in_range timeout && negb (breached timeout d).

(** The cursor of [matchAll] standing at position [i]. *)
Definition cursor_at (R : RegExp) (str : string) (i : nat)
    : RegExpStringIterator :=
  mkIterator (set_lastIndex i R) str false.

(* ------------------------------------------------------------------ *)
(** * Concrete regexes and clocks used in the examples *)
(* ------------------------------------------------------------------ *)

(** [/\d+/g], [/\d+/] and [/x+/] *)
Definition digits_g : RegExp :=
  Pattern.global_regex (Pattern.Plus (Pattern.Class Pattern.digit)).
Definition digits : RegExp :=
  Pattern.plain_regex (Pattern.Plus (Pattern.Class Pattern.digit)).

(** Every turn needs half a millisecond and is measured as such. *)
Definition steady : nat -> sample := fun _ => mkSample (1#2)%Q (1#2)%Q.

(** A function that fails by itself with the error of an expired script,
    as one that runs a guarded call of its own does when that call times
    out. *)
Definition fails_with_timeout_code : unit -> run (option bool) :=
  fun _ => mkRun 0%Q (Throw ERR_SCRIPT_EXECUTION_TIMEOUT).

(** "A plain exhaustive scan of that pattern over that string", told by
    positions: from the start of the subject, the position and the answer
    of the pattern for each match in turn, continuing behind each match. *)
Fixpoint scan_from (fuel : nat) (R : RegExp) (str : string) (i : nat)
    : list (nat * submatch) :=
  match fuel with
  | O => []
  | S fuel' =>
      if (String.length str <? i)%nat then []
      else
        match locate R str i with
        | None => []
        | Some (j, r) => (j, r) :: scan_from fuel' R str (behind str j r)
        end
  end.

Definition exhaustive_scan (R : RegExp) (str : string) : list (nat * submatch) :=
  scan_from (String.length str + 1) R str 0.

(** The match the specification expects for the pattern's answer [r] at
    position [j]: the text matched there, the position, the captures of the
    unnamed groups, the named groups and the subject. *)
Definition expected_match (str : string) (found : nat * submatch) : Match :=
  mkMatch (String.substring (fst found) (matched (snd found)) str)
          (fst found)
          (captures (snd found))
          (match named (snd found) with Some g => g | None => [] end)
          str.

(** The [name] property the source defines on the wrapper
    (src/functionTimeout.ts, lines 49-52):
    [`functionTimeout(${function_.name || "<anonymous>"})`].  An empty name
    is falsy and gives the placeholder. *)
Definition wrappedFunction_name (function_name : string) : string :=
  "functionTimeout("
  ++ (if String.eqb function_name "" then "<anonymous>" else function_name)
  ++ ")".

(** Match [a] ends before match [b] starts. *)
Definition before (a b : Match) : Prop :=
  index a + String.length (match_ a) <= index b.

(** The largest [timeout] the isolation layer takes. *)
Definition max_timeout : Z := 4294967295.

(* ------------------------------------------------------------------ *)
(** * The guard *)
(* ------------------------------------------------------------------ *)

Section GuardFacts.
Context {A V : Type}.
Variable f : A -> run (option V).

Lemma functionTimeout_requests (timeout : option number) (a : A)
    (c : context V) :
  invocations (snd (functionTimeout f timeout a c))
  = (invocations c ++ [timeout])%list.
Proof.
  unfold functionTimeout, runInNewContext; cbn.
  destruct (timeout_in_range timeout); cbn; [|reflexivity].
  destruct (result (f a)); cbn.
  - destruct (breached timeout (took (f a))); reflexivity.
  - destruct (breached timeout (took (f a))); reflexivity.
  - destruct timeout; reflexivity.
Qed.

Lemma functionTimeout_outcome (timeout : option number) (a : A)
    (c : context V) :
  fst (functionTimeout f timeout a c) =
  if negb (timeout_in_range timeout) then Throw ERR_OUT_OF_RANGE
  else
    match result (f a) with
    | Normal v =>
        if breached timeout (took (f a))
        then Throw ERR_SCRIPT_EXECUTION_TIMEOUT else Normal v
    | Throw e =>
        if breached timeout (took (f a))
        then Throw ERR_SCRIPT_EXECUTION_TIMEOUT else Throw e
    | Hang =>
        match timeout with
        | Some _ => Throw ERR_SCRIPT_EXECUTION_TIMEOUT
        | None => Hang
        end
    end.
Proof.
  unfold functionTimeout, runInNewContext; cbn.
  destruct (timeout_in_range timeout); cbn; [|reflexivity].
  destruct (result (f a)); cbn.
  - destruct (breached timeout (took (f a))); reflexivity.
  - destruct (breached timeout (took (f a))); reflexivity.
  - destruct timeout; reflexivity.
Qed.

End GuardFacts.

Lemma isTimeoutError_code (e : thrown) :
  isTimeoutError e = true <-> code_of e = Some "ERR_SCRIPT_EXECUTION_TIMEOUT".
Proof.
  destruct e as [|n [c|] m]; cbn; try (split; discriminate).
  rewrite String.eqb_eq. split; congruence.
Qed.

Lemma step_timeout_effective (t m : number) :
  step_timeout t m = effective_deadline t m.
Proof. destruct t, m; reflexivity. Qed.

Lemma to_double_safe (z : Z) : (Z.abs z < 2 ^ 53)%Z -> to_double z = z.
Proof.
  intros H. unfold to_double. cbv zeta.
  destruct (Z.ltb_spec (Z.abs z) (2 ^ 53)); [reflexivity|lia].
Qed.

Lemma number_sub_charge (t : number) (e : Q) :
  (forall r, t = Finite r -> (Z.abs (r - Qceiling e) < 2 ^ 53)%Z) ->
  number_sub t (Math_ceil e) = charge t e.
Proof.
  intros H. destruct t as [r|]; [|reflexivity].
  unfold number_sub, charge, Math_ceil. rewrite to_double_safe; auto.
Qed.

(* ------------------------------------------------------------------ *)
(** * One turn of the loop *)
(* ------------------------------------------------------------------ *)

(** The turn spelled out: refused by the isolation layer, cut at the
    deadline, or run to the [break] or the [yield]. *)
Lemma loop_turn_cases (w : sample) (it : Iterable) (c : RegExpStringIterator) :
  loop_turn w it c =
  let d := step_timeout (timeout it) (matchTimeout it) in
  if negb (timeout_in_range d) then mkStep (Throw ERR_OUT_OF_RANGE) it Completed [d]
  else if breached d (work w) then mkStep (Normal None) it Completed [d]
  else
    let it' := set_timeout (number_sub (timeout it) (Math_ceil (elapsed w))) it in
    if done (fst (next c)) then mkStep (Normal None) it' Completed [d]
    else
      match value (fst (next c)) with
      | Some v =>
          mkStep (Normal (Some (resultToMatch v))) it'
                 (SuspendedYield (snd (next c))) [d]
      | None => mkStep (Throw undefined_access) it' Completed [d]
      end.
Proof.
  unfold loop_turn.
  set (body := fun _ : unit => mkRun (work w) (Normal (Some (next c)))).
  set (d := step_timeout (timeout it) (matchTimeout it)).
  pose proof (functionTimeout_requests body d tt createContext) as Hreq.
  pose proof (functionTimeout_outcome body d tt createContext) as Hout.
  destruct (functionTimeout body d tt createContext) as [o ctx].
  cbn [fst snd] in Hreq, Hout. cbn in Hreq. rewrite Hreq. subst o.
  cbv zeta. destruct (timeout_in_range d); cbn [negb].
  - cbn [result took body]. destruct (breached d (work w)).
    + reflexivity.
    + destruct (next c) as [res c']. cbn [fst snd].
      destruct (done res); [reflexivity|].
      destruct (value res); reflexivity.
  - reflexivity.
Qed.

Lemma loop_turn_requested (w : sample) (it : Iterable) (c : RegExpStringIterator) :
  requested (loop_turn w it c) = [step_timeout (timeout it) (matchTimeout it)].
Proof.
  rewrite loop_turn_cases. cbv zeta.
  destruct (negb _); [reflexivity|].
  destruct (breached _ _); [reflexivity|].
  destruct (done _); [reflexivity|].
  destruct (value _); reflexivity.
Qed.

(** The closure is only ever changed in its [timeout]. *)
Lemma loop_turn_closure (w : sample) (it : Iterable) (c : RegExpStringIterator) :
  closure (loop_turn w it c) =
  if completes (step_timeout (timeout it) (matchTimeout it)) (work w)
  then set_timeout (number_sub (timeout it) (Math_ceil (elapsed w))) it
  else it.
Proof.
  rewrite loop_turn_cases. unfold completes. cbv zeta.
  destruct (timeout_in_range _); cbn [negb andb]; [|reflexivity].
  destruct (breached _ _); cbn [negb]; [reflexivity|].
  destruct (done _); [reflexivity|].
  destruct (value _); reflexivity.
Qed.

(* ------------------------------------------------------------------ *)
(** * The cursor against the plain scan *)
(* ------------------------------------------------------------------ *)

Lemma set_lastIndex_same (R : RegExp) : set_lastIndex (lastIndex R) R = R.
Proof. destruct R; reflexivity. Qed.

Lemma matchAll_global (R : RegExp) (str : string) :
  global R = true -> matchAll str R = Normal (cursor_at R str (lastIndex R)).
Proof. intros H. unfold matchAll, cursor_at. rewrite H. reflexivity. Qed.

Lemma substring_nothing (n : nat) (s : string) : String.substring n 0 s = "".
Proof.
  revert s. induction n as [|n IH]; intros [|c s]; cbn; auto.
Qed.

Lemma behind_further (str : string) (j : nat) (r : submatch) :
  j < behind str j r.
Proof.
  unfold behind. destruct (matched r) as [|m] eqn:E.
  - rewrite substring_nothing. cbn. lia.
  - destruct (_ =? 0)%nat; lia.
Qed.

Lemma search_bounds (m : matcher) (str : string) (fuel i j : nat) (r : submatch) :
  search m str fuel i = Some (j, r) -> i <= j <= i + fuel.
Proof.
  revert i. induction fuel as [|fuel IH]; intros i; cbn.
  - destruct (m str i); intros [= <- <-]; lia.
  - destruct (m str i).
    + intros [= <- <-]; lia.
    + intros H. apply IH in H. lia.
Qed.

Lemma locate_bounds (R : RegExp) (str : string) (i j : nat) (r : submatch) :
  i <= String.length str ->
  locate R str i = Some (j, r) -> i <= j <= String.length str.
Proof.
  intros Hi. unfold locate. destruct (sticky R).
  - destruct (pattern R str i); intros [= <- <-]; lia.
  - intros H. apply search_bounds in H. lia.
Qed.

(** One [next()] of the cursor is one step of the plain scan. *)
Lemma next_cursor_at (R : RegExp) (str : string) (i : nat) :
  global R = true ->
  next (cursor_at R str i) =
  if (String.length str <? i)%nat
  then (mkResult None true, mkIterator (set_lastIndex 0 R) str true)
  else
    match locate R str i with
    | None => (mkResult None true, mkIterator (set_lastIndex 0 R) str true)
    | Some (j, r) =>
        (mkResult (Some (make_ExecArray str j r)) false,
         cursor_at R str (behind str j r))
    end.
Proof.
  intros Hg. destruct R as [p g s l]. cbn in Hg. subst g.
  unfold next, cursor_at, RegExpBuiltinExec, set_lastIndex, locate.
  cbn [iterating iterated finished global sticky lastIndex pattern orb].
  destruct (String.length str <? i)%nat; [reflexivity|].
  match goal with
  | |- context [match ?found with Some _ => _ | None => _ end] =>
      destruct found as [[j r]|]; [|reflexivity]
  end.
  unfold behind, make_ExecArray.
  cbn [exec_0 global sticky lastIndex pattern].
  destruct (_ =? 0)%nat; reflexivity.
Qed.

(** Past [length + 1 - i] matches there is nothing left to find: the fuel
    of the scan does not matter from there on. *)
Lemma forward_scan_fuel (R : RegExp) (str : string) (fuel fuel' i : nat) :
  String.length str + 1 - i <= fuel ->
  String.length str + 1 - i <= fuel' ->
  forward_scan fuel R str i = forward_scan fuel' R str i.
Proof.
  revert fuel' i. induction fuel as [|fuel IH]; intros fuel' i H H'.
  - destruct fuel' as [|fuel']; [reflexivity|]. cbn [forward_scan].
    destruct (Nat.ltb_spec (String.length str) i); [reflexivity|lia].
  - destruct fuel' as [|fuel'].
    + cbn [forward_scan]. destruct (Nat.ltb_spec (String.length str) i); [reflexivity|lia].
    + cbn [forward_scan]. destruct (Nat.ltb_spec (String.length str) i) as [|Hi]; [reflexivity|].
      destruct (locate R str i) as [[j r]|] eqn:E; [|reflexivity].
      apply locate_bounds in E; [|assumption].
      pose proof (behind_further str j r).
      f_equal. apply IH; lia.
Qed.

(** The scan finds its matches at strictly increasing positions, none
    before the position it starts from. *)
Lemma forward_scan_from (R : RegExp) (str : string) (fuel i : nat) :
  Forall (fun a => i <= exec_index a) (forward_scan fuel R str i).
Proof.
  revert i. induction fuel as [|fuel IH]; intros i; cbn [forward_scan]; [constructor|].
  destruct (Nat.ltb_spec (String.length str) i) as [|Hi]; [constructor|].
  destruct (locate R str i) as [[j r]|] eqn:E; [|constructor].
  apply locate_bounds in E; [|assumption].
  constructor; [cbn; lia|].
  pose proof (behind_further str j r).
  eapply Forall_impl; [|apply IH]. cbn. intros a Ha. lia.
Qed.

Lemma forward_scan_increasing (R : RegExp) (str : string) (fuel i : nat) :
  Sorted.StronglySorted (fun a b => exec_index a < exec_index b)
                        (forward_scan fuel R str i).
Proof.
  revert i. induction fuel as [|fuel IH]; intros i; cbn [forward_scan]; [constructor|].
  destruct (String.length str <? i)%nat; [constructor|].
  destruct (locate R str i) as [[j r]|] eqn:E; [|constructor].
  constructor; [apply IH|].
  pose proof (behind_further str j r).
  eapply Forall_impl; [|apply forward_scan_from]. cbn. intros a Ha. lia.
Qed.

(* ------------------------------------------------------------------ *)
(** * Pulling the whole sequence *)
(* ------------------------------------------------------------------ *)

Lemma set_timeout_same (it : Iterable) : set_timeout (timeout it) it = it.
Proof. destruct it; reflexivity. Qed.

(** A turn of the loop whose cursor stands at position [i]. *)
Lemma loop_turn_at (w : sample) (it : Iterable) (R : RegExp) (str : string)
    (i : nat) :
  global R = true ->
  loop_turn w it (cursor_at R str i) =
  let d := step_timeout (timeout it) (matchTimeout it) in
  if negb (timeout_in_range d) then mkStep (Throw ERR_OUT_OF_RANGE) it Completed [d]
  else if breached d (work w) then mkStep (Normal None) it Completed [d]
  else
    let it' := set_timeout (number_sub (timeout it) (Math_ceil (elapsed w))) it in
    if (String.length str <? i)%nat then mkStep (Normal None) it' Completed [d]
    else
      match locate R str i with
      | None => mkStep (Normal None) it' Completed [d]
      | Some (j, r) =>
          mkStep (Normal (Some (resultToMatch (make_ExecArray str j r)))) it'
                 (SuspendedYield (cursor_at R str (behind str j r))) [d]
      end.
Proof.
  intros Hg. rewrite loop_turn_cases, (next_cursor_at R str i Hg). cbv zeta.
  destruct (negb _); [reflexivity|].
  destruct (breached _ _); [reflexivity|].
  destruct (String.length str <? i)%nat; [reflexivity|].
  destruct (locate R str i) as [[j r]|]; reflexivity.
Qed.

(** The first [next()] builds the cursor and then takes a turn like any
    other. *)
Lemma generator_next_start (w : sample) (it : Iterable) :
  global (regex it) = true ->
  generator_next w it SuspendedStart =
  loop_turn w it (cursor_at (regex it) (string_ it) (lastIndex (regex it))).
Proof.
  intros Hg. unfold generator_next. rewrite (matchAll_global _ _ Hg). reflexivity.
Qed.

Lemma pull_start (fuel : nat) (clock : nat -> sample) (n : nat) (it : Iterable) :
  global (regex it) = true ->
  pull fuel clock n it SuspendedStart =
  pull fuel clock n it
       (SuspendedYield (cursor_at (regex it) (string_ it) (lastIndex (regex it)))).
Proof.
  intros Hg. destruct fuel as [|fuel]; [reflexivity|].
  cbn [pull]. rewrite (generator_next_start _ _ Hg). reflexivity.
Qed.

(** With both budgets unbounded the consumer receives the plain scan. *)
Lemma pull_unbounded (R : RegExp) (str : string) (clock : nat -> sample)
    (it : Iterable) :
  global R = true ->
  timeout it = PosInfinity -> matchTimeout it = PosInfinity ->
  forall (f n i : nat),
    String.length str + 1 - i <= f ->
    pull (S f) clock n it (SuspendedYield (cursor_at R str i)) =
    mkPulled (map resultToMatch (forward_scan f R str i))
             (Some (Normal tt)) it
             (repeat None (S (List.length (forward_scan f R str i)))).
Proof.
  intros Hg Ht Hm. destruct it as [re s t m]. cbn in Ht, Hm. subst t m.
  induction f as [|f IH]; intros n i Hf.
  - cbn [pull generator_next forward_scan].
    rewrite (loop_turn_at _ _ _ _ _ Hg). cbn -[Nat.ltb].
    destruct (Nat.ltb_spec (String.length str) i); [reflexivity|lia].
  - remember (S f) as f1 eqn:Ef1.
    cbn [pull generator_next]. rewrite (loop_turn_at _ _ _ _ _ Hg).
    cbn -[Nat.ltb pull forward_scan].
    subst f1. cbn [forward_scan].
    destruct (Nat.ltb_spec (String.length str) i) as [|Hi]; [reflexivity|].
    destruct (locate R str i) as [[j r]|] eqn:E; [|reflexivity].
    cbn [returned closure generator requested].
    apply locate_bounds in E; [|assumption].
    pose proof (behind_further str j r).
    rewrite IH by lia. reflexivity.
Qed.

(** Whatever the budgets and the timing, what the consumer receives is an
    initial stretch of the plain scan. *)
Lemma pull_prefix (R : RegExp) (str : string) (clock : nat -> sample) :
  global R = true ->
  forall (fuel n i : nat) (it : Iterable) (F : nat),
    String.length str + 1 - i <= F ->
    exists k,
      yielded (pull fuel clock n it (SuspendedYield (cursor_at R str i))) =
      firstn k (map resultToMatch (forward_scan F R str i)).
Proof.
  intros Hg. induction fuel as [|fuel IH]; intros n i it F HF.
  - exists 0. reflexivity.
  - cbn [pull generator_next]. rewrite (loop_turn_at _ _ _ _ _ Hg). cbv zeta.
    destruct (negb _); [exists 0; reflexivity|].
    destruct (breached _ _); [exists 0; reflexivity|].
    destruct (Nat.ltb_spec (String.length str) i) as [|Hi]; [exists 0; reflexivity|].
    destruct (locate R str i) as [[j r]|] eqn:E; [|exists 0; reflexivity].
    cbn [returned closure generator requested yielded].
    destruct F as [|F]; [lia|]. cbn [forward_scan].
    destruct (Nat.ltb_spec (String.length str) i); [lia|]. rewrite E.
    apply locate_bounds in E; [|assumption].
    pose proof (behind_further str j r).
    destruct (IH (S n) (behind str j r)
                 (set_timeout (number_sub (timeout it) (Math_ceil (elapsed (clock n)))) it)
                 F) as [k Hk]; [lia|].
    exists (S k). cbn [map firstn]. rewrite Hk. reflexivity.
Qed.




(* ------------------------------------------------------------------ *)
(** * The budget *)
(* ------------------------------------------------------------------ *)

(** A call of [next()] leaves the closure alone but for [timeout], which it
    charges with the stopwatch reading when the guarded turn ran to its
    end, and which it leaves as it is otherwise; it yields only in the
    first case. *)
Lemma generator_next_budget (w : sample) (it : Iterable) (g : Generator) :
  let st := generator_next w it g in
  regex (closure st) = regex it /\
  string_ (closure st) = string_ it /\
  matchTimeout (closure st) = matchTimeout it /\
  ((completes (step_timeout (timeout it) (matchTimeout it)) (work w) = true
    /\ timeout (closure st) = number_sub (timeout it) (Math_ceil (elapsed w)))
   \/ (timeout (closure st) = timeout it
       /\ forall m, returned st <> Normal (Some m))).
Proof.
  assert (Hturn : forall c,
    let st := loop_turn w it c in
    regex (closure st) = regex it /\
    string_ (closure st) = string_ it /\
    matchTimeout (closure st) = matchTimeout it /\
    ((completes (step_timeout (timeout it) (matchTimeout it)) (work w) = true
      /\ timeout (closure st) = number_sub (timeout it) (Math_ceil (elapsed w)))
     \/ (timeout (closure st) = timeout it
         /\ forall m, returned st <> Normal (Some m)))).
  { intros c. cbv zeta. rewrite loop_turn_cases. unfold completes. cbv zeta.
    destruct (timeout_in_range _); cbn [negb andb];
      [|cbn; repeat split; right; split; [reflexivity|discriminate]].
    destruct (breached _ _); cbn [negb];
      [cbn; repeat split; right; split; [reflexivity|discriminate]|].
    destruct (done _); [cbn; repeat split; left; split; reflexivity|].
    destruct (value _); cbn; repeat split; left; split; reflexivity. }
  destruct g as [|c|]; cbn [generator_next].
  - destruct (matchAll (string_ it) (regex it)) as [c|e|]; [apply Hturn| |].
    + unfold catch_clause. destruct (isTimeoutError e); cbn;
        repeat split; right; split; (reflexivity || discriminate).
    + cbn. repeat split; right; split; [reflexivity|discriminate].
  - apply Hturn.
  - cbn. repeat split; right; split; [reflexivity|discriminate].
Qed.

(** A guarded turn runs to its end only on a budget of at least one
    millisecond. *)
Lemma completes_positive (r : Z) (m : number) (d : Q) :
  completes (step_timeout (Finite r) m) d = true -> (1 <= r)%Z.
Proof.
  unfold completes. intros H. apply andb_true_iff in H. destruct H as [H _].
  destruct m as [z|]; cbn in H; apply andb_true_iff in H;
    rewrite !Z.leb_le in H; lia.
Qed.

(** The iteration touches nothing of the closure but [timeout]. *)
Lemma pull_frame (clock : nat -> sample) :
  forall (fuel n : nat) (it : Iterable) (g : Generator),
    let p := pull fuel clock n it g in
    regex (after p) = regex it /\ string_ (after p) = string_ it
    /\ matchTimeout (after p) = matchTimeout it.
Proof.
  induction fuel as [|fuel IH]; intros n it g; cbv zeta; [cbn; auto|].
  cbn [pull].
  destruct (generator_next_budget (clock n) it g) as (Hr & Hs & Hm & _).
  cbv zeta in Hr, Hs, Hm.
  destruct (returned (generator_next (clock n) it g)) as [[m|]|e|];
    cbn [after]; auto.
  destruct (IH (S n) (closure (generator_next (clock n) it g))
               (generator (generator_next (clock n) it g))) as (Hr' & Hs' & Hm').
  cbv zeta in Hr', Hs', Hm'. repeat split; congruence.
Qed.

(** An unbounded budget stays unbounded. *)
Lemma pull_keeps_infinity (clock : nat -> sample) :
  forall (fuel n : nat) (it : Iterable) (g : Generator),
    timeout it = PosInfinity ->
    timeout (after (pull fuel clock n it g)) = PosInfinity.
Proof.
  induction fuel as [|fuel IH]; intros n it g Hinf; [exact Hinf|].
  cbn [pull].
  destruct (generator_next_budget (clock n) it g) as (_ & _ & _ & Ht).
  cbv zeta in Ht.
  assert (Hc : timeout (closure (generator_next (clock n) it g)) = PosInfinity).
  { destruct Ht as [[_ Ht]|[Ht _]]; rewrite Ht, Hinf; reflexivity. }
  destruct (returned (generator_next (clock n) it g)) as [[m|]|e|];
    cbn [after]; auto.
Qed.

(** After any number of calls a finite budget within the range where
    doubles subtract exactly is the one before, less the rounded-up
    readings of the turns that were charged: every turn that yielded, and
    possibly the last one. *)
Lemma pull_budget (clock : nat -> sample) :
  (forall k, (0 <= elapsed (clock k))%Q
             /\ (Qceiling (elapsed (clock k)) < 2 ^ 53)%Z) ->
  forall (fuel n : nat) (it : Iterable) (g : Generator) (r : Z),
    timeout it = Finite r -> (Z.abs r < 2 ^ 53)%Z ->
    let p := pull fuel clock n it g in
    exists m,
      List.length (yielded p) <= m <= S (List.length (yielded p)) /\
      timeout (after p) = Finite (r - charged clock n m).
Proof.
  intros Hclock.
  induction fuel as [|fuel IH]; intros n it g r Hfin Hsafe; cbv zeta.
  - exists 0. cbn. rewrite Hfin, Z.sub_0_r. split; [lia|reflexivity].
  - cbn [pull].
    destruct (generator_next_budget (clock n) it g) as (_ & _ & _ & Ht).
    cbv zeta in Ht.
    set (st := generator_next (clock n) it g) in *.
    destruct (Hclock n) as [He0 Hemax].
    pose proof (Qceiling_resp_le _ _ He0) as Hceil. change (Qceiling 0) with 0%Z in Hceil.
    assert (Hcharged :
      completes (step_timeout (timeout it) (matchTimeout it)) (work (clock n)) = true ->
      number_sub (timeout it) (Math_ceil (elapsed (clock n)))
      = Finite (r - Qceiling (elapsed (clock n)))
      /\ (Z.abs (r - Qceiling (elapsed (clock n))) < 2 ^ 53)%Z).
    { intros Hc. rewrite Hfin in Hc |- *. apply completes_positive in Hc.
      assert (Hs : (Z.abs (r - Qceiling (elapsed (clock n))) < 2 ^ 53)%Z) by lia.
      split; [|exact Hs]. unfold number_sub, Math_ceil.
      rewrite (to_double_safe _ Hs). reflexivity. }
    assert (Hlast : forall e : option (completion unit),
      let p := mkPulled [] e (closure st) (requested st) in
      exists m, List.length (yielded p) <= m <= S (List.length (yielded p)) /\
                timeout (after p) = Finite (r - charged clock n m)).
    { intros e. cbn. destruct Ht as [[Hc Ht]|[Ht _]].
      - exists 1. cbn. split; [lia|]. rewrite Ht, (proj1 (Hcharged Hc)).
        f_equal. lia.
      - exists 0. cbn. rewrite Z.sub_0_r. split; [lia|congruence]. }
    destruct (returned st) as [[m|]|e|] eqn:Eret; try apply Hlast.
    destruct Ht as [[Hc Ht]|[_ Hno]]; [|exfalso; apply (Hno m); reflexivity].
    destruct (Hcharged Hc) as [Hsub Hs]. rewrite Hsub in Ht.
    destruct (IH (S n) (closure st) (generator st) _ Ht Hs) as (k & Hk & Ht').
    cbv zeta in Hk, Ht'. cbn [after yielded].
    exists (S k). cbn [List.length charged]. split; [lia|].
    rewrite Ht'. f_equal. lia.
Qed.

(* ------------------------------------------------------------------ *)
(** * The deadline executor (src/functionTimeout.ts) *)
(* ------------------------------------------------------------------ *)

(** C4, as stated, fails: the claim has every exception that the function
    itself raises told apart from a timeout by [isTimeoutError].  The
    predicate looks at the [code] property only, so an exception of the
    function that carries the code of an expired script passes through the
    wrapper unchanged and is then reported as a timeout, here without any
    deadline being set. *)
Lemma own_exception_taken_for_timeout :
  ~ (forall (f : unit -> run (option bool)) (timeout : option number)
            (c : context bool) (e : thrown),
        timeout_in_range timeout = true ->
        result (f tt) = Throw e ->
        breached timeout (took (f tt)) = false ->
        fst (functionTimeout f timeout tt c) = Throw e
        /\ isTimeoutError e = false).
Proof.
  intros H.
  destruct (H fails_with_timeout_code None createContext
              ERR_SCRIPT_EXECUTION_TIMEOUT eq_refl eq_refl eq_refl) as [_ H'].
  discriminate H'.
Qed.

(** C4, amended.  For a [timeout] option that the isolation layer accepts,
    the wrapper returns the function's result unchanged ([undefined]
    included) when the function returns within the deadline; it raises the
    error of an expired script, for which [isTimeoutError] holds, when the
    deadline is breached; an exception the function raises within the
    deadline propagates unchanged; and [isTimeoutError] is false for an
    exception exactly when its [code] is not ERR_SCRIPT_EXECUTION_TIMEOUT. *)
Theorem functionTimeout_guard {A V : Type} (f : A -> run (option V))
    (timeout : option number) (a : A) (c : context V) :
  timeout_in_range timeout = true ->
  fst (functionTimeout f timeout a c) =
    match result (f a) with
    | Normal v =>
        if breached timeout (took (f a))
        then Throw ERR_SCRIPT_EXECUTION_TIMEOUT else Normal v
    | Throw e =>
        if breached timeout (took (f a))
        then Throw ERR_SCRIPT_EXECUTION_TIMEOUT else Throw e
    | Hang =>
        match timeout with
        | Some _ => Throw ERR_SCRIPT_EXECUTION_TIMEOUT
        | None => Hang
        end
    end
  /\ isTimeoutError ERR_SCRIPT_EXECUTION_TIMEOUT = true
  /\ (forall e, isTimeoutError e = false
                <-> code_of e <> Some "ERR_SCRIPT_EXECUTION_TIMEOUT").
Proof.
  intros Hok. split; [|split].
  - rewrite functionTimeout_outcome, Hok. reflexivity.
  - reflexivity.
  - intros e. rewrite <- isTimeoutError_code.
    destruct (isTimeoutError e); split; congruence.
Qed.

Lemma functionTimeout_guard_witness :
  timeout_in_range (Some (Finite 5)) = true
  /\ fst (functionTimeout (fun _ : unit => mkRun (1#2)%Q (Normal (@None bool)))
                          (Some (Finite 5)) tt createContext)
     = Normal None
  /\ fst (functionTimeout (fun _ : unit => mkRun 6%Q (Normal (Some true)))
                          (Some (Finite 5)) tt createContext)
     = Throw ERR_SCRIPT_EXECUTION_TIMEOUT.
Proof.
  split; [reflexivity|]. split.
  - exact (proj1 (functionTimeout_guard
                    (fun _ : unit => mkRun (1#2)%Q (Normal (@None bool)))
                    (Some (Finite 5)) tt createContext eq_refl)).
  - exact (proj1 (functionTimeout_guard
                    (fun _ : unit => mkRun 6%Q (Normal (Some true)))
                    (Some (Finite 5)) tt createContext eq_refl)).
Defined.

(* ------------------------------------------------------------------ *)
(** * isMatch and firstMatch *)
(* ------------------------------------------------------------------ *)





Lemma isMatch_regex_after (regex : RegExp) (string_ : string)
    (timeout : option number) (d : Q) :
  snd (isMatch regex string_ timeout d) = regex.
Proof.
  unfold isMatch.
  destruct (functionTimeout _ timeout tt createContext) as [[v|e|] ctx];
    [reflexivity| |reflexivity].
  destruct (isTimeoutError e); reflexivity.
Qed.

Lemma isMatch_any_lastIndex (regex : RegExp) (i : nat) (string_ : string)
    (timeout : option number) (d : Q) :
  fst (isMatch (set_lastIndex i regex) string_ timeout d)
  = fst (isMatch regex string_ timeout d).
Proof.
  unfold isMatch.
  change (structuredClone (set_lastIndex i regex)) with (structuredClone regex).
  destruct (functionTimeout _ timeout tt createContext) as [[v|e|] ctx];
    [reflexivity| |reflexivity].
  destruct (isTimeoutError e); reflexivity.
Qed.

(** [RegExp.prototype.test] itself does move [lastIndex] of a global regex:
    after a successful test on "a1" the same object no longer matches "1a". *)
Example test_moves_lastIndex :
  fst (test digits_g "1a") = true
  /\ lastIndex (snd (test digits_g "a1")) = 2
  /\ fst (test (snd (test digits_g "a1")) "1a") = false.
Proof. repeat split; vm_compute; reflexivity. Qed.

(** C9.  [isMatch] leaves its regex as it found it, so that two calls in a
    row on the same object give the results they give in the other order;
    the result does not depend on the [lastIndex] the object carries; and
    the clone it works on has the pattern and the flags of the original and
    a [lastIndex] of zero. *)
Theorem isMatch_order_independent (regex : RegExp) (s1 s2 : string)
    (t1 t2 : option number) (d1 d2 : Q) :
  let first := isMatch regex s1 t1 d1 in
  let second := isMatch (snd first) s2 t2 d2 in
  let first' := isMatch regex s2 t2 d2 in
  let second' := isMatch (snd first') s1 t1 d1 in
  snd first = regex /\ snd second = regex
  /\ fst first = fst second' /\ fst second = fst first'
  /\ (forall i, fst (isMatch (set_lastIndex i regex) s1 t1 d1) = fst first)
  /\ pattern (structuredClone regex) = pattern regex
  /\ global (structuredClone regex) = global regex
  /\ sticky (structuredClone regex) = sticky regex
  /\ lastIndex (structuredClone regex) = 0.
Proof.
  cbv zeta. rewrite !isMatch_regex_after.
  repeat split; try reflexivity.
  intros i. apply isMatch_any_lastIndex.
Qed.

Lemma isMatch_order_independent_witness :
  let one := isMatch digits_g "a1" None (1#2)%Q in
  let two := isMatch (snd one) "1a" None (1#2)%Q in
  fst one = Normal (Some true) /\ fst two = Normal (Some true)
  /\ snd two = digits_g.
Proof.
  cbv zeta.
  destruct (isMatch_order_independent digits_g "a1" "1a" None None (1#2)%Q (1#2)%Q)
    as (_ & Hsame & _).
  split; [vm_compute; reflexivity|]. split; [vm_compute; reflexivity|].
  exact Hsame.
Defined.

(* ------------------------------------------------------------------ *)
(** * matches *)
(* ------------------------------------------------------------------ *)

(** C5.  Without the global flag the call of [matches] itself throws: no
    iterable comes back, so nothing is left to be iterated or evaluated.
    The error is a plain [Error] without a [code], hence no timeout error,
    and its message names [firstMatch]. *)
Theorem matches_needs_global (regex : RegExp) (string_ : string)
    (options : MatchesOptions) :
  global regex = false ->
  matches regex string_ options = Throw usage_error
  /\ (forall it, matches regex string_ options <> Normal it)
  /\ isTimeoutError usage_error = false
  /\ usage_error =
     ErrorObject "Error" None
       "The regex must have the global flag, otherwise, use `firstMatch()` instead"
  /\ mentions "firstMatch" (message_of usage_error) = true.
Proof.
  intros Hg. unfold matches. rewrite Hg. cbn [negb].
  repeat split; try reflexivity. intros it. discriminate.
Qed.

Lemma matches_needs_global_witness :
  global digits = false
  /\ matches digits "a1 b22 c333" (mkOptions (Some (Finite 1000)) None)
     = Throw usage_error.
Proof.
  split; [reflexivity|].
  exact (proj1 (matches_needs_global digits "a1 b22 c333"
                  (mkOptions (Some (Finite 1000)) None) eq_refl)).
Defined.

(** C1, as stated, fails: the claim has the stopwatch reading taken off a
    finite budget after every step.  A step that is cut at its deadline
    throws before the subtraction is reached: with a budget of 10 ms and a
    per-match timeout of 1 ms, a turn that needs 2 ms leaves the budget at
    10.  And the subtraction is one of doubles: a budget of 2^60 ms charged
    1 ms is 2^60 ms still. *)
Lemma cut_turn_is_not_charged :
  ~ (forall (w : sample) (it : Iterable) (g : Generator) (r : Z),
       global (regex it) = true -> g <> Completed ->
       timeout it = Finite r ->
       timeout (closure (generator_next w it g))
       = Finite (r - Qceiling (elapsed w)))
  /\ timeout (closure (generator_next (mkSample 2%Q 2%Q)
                (mkIterable digits_g "a1 b22 c333" (Finite 10) (Finite 1))
                SuspendedStart)) = Finite 10
  /\ timeout (closure (generator_next (mkSample (1#2)%Q (1#2)%Q)
                (mkIterable digits_g "a1 b22 c333" (Finite (2 ^ 60)) (Finite 1000))
                SuspendedStart)) = Finite (2 ^ 60).
Proof.
  split; [|split; vm_compute; reflexivity].
  intros H.
  specialize (H (mkSample 2%Q 2%Q)
                (mkIterable digits_g "a1 b22 c333" (Finite 10) (Finite 1))
                SuspendedStart 10%Z eq_refl).
  assert (Hrun : SuspendedStart <> Completed) by discriminate.
  specialize (H Hrun eq_refl). vm_compute in H. discriminate H.
Qed.

(** C1, amended.  A call of [next()] on a generator that is not over hands
    the isolation layer one deadline: min(remaining, matchTimeout) when one
    of the two is finite, none when both are unbounded.  If the guarded
    turn runs to its end, the remaining budget afterwards is the one before
    less the stopwatch reading rounded up when it was finite (budgets and
    readings below 2^53 ms, where doubles subtract exactly), and is
    unbounded when it was unbounded; a turn that is refused or cut leaves it
    as it was.  An unbounded budget is unbounded after any number of
    calls. *)
Theorem step_deadline_and_charge (w : sample) (it : Iterable) (g : Generator) :
  global (regex it) = true -> g <> Completed ->
  (0 <= elapsed w)%Q -> (Qceiling (elapsed w) < 2 ^ 53)%Z ->
  (forall r, timeout it = Finite r -> (Z.abs r < 2 ^ 53)%Z) ->
  let st := generator_next w it g in
  let deadline := effective_deadline (timeout it) (matchTimeout it) in
  requested st = [deadline]
  /\ timeout (closure st) =
     (if completes deadline (work w)
      then charge (timeout it) (elapsed w) else timeout it)
  /\ (timeout it = PosInfinity ->
      timeout (closure st) = PosInfinity
      /\ forall fuel clock n,
           timeout (after (pull fuel clock n it g)) = PosInfinity).
Proof.
  intros Hg Hrun He0 Hemax Hsafe. cbv zeta.
  pose proof (Qceiling_resp_le _ _ He0) as Hceil.
  change (Qceiling 0) with 0%Z in Hceil.
  assert (Hturn : forall c,
    requested (loop_turn w it c) = [effective_deadline (timeout it) (matchTimeout it)]
    /\ timeout (closure (loop_turn w it c)) =
       (if completes (effective_deadline (timeout it) (matchTimeout it)) (work w)
        then charge (timeout it) (elapsed w) else timeout it)).
  { intros c. rewrite loop_turn_requested, loop_turn_closure, step_timeout_effective.
    split; [reflexivity|].
    destruct (completes _ _) eqn:Hc; [|reflexivity].
    cbn [timeout set_timeout]. apply number_sub_charge.
    intros r Hr. rewrite <- step_timeout_effective, Hr in Hc.
    apply completes_positive in Hc. specialize (Hsafe r Hr). lia. }
  assert (Hst : requested (generator_next w it g)
                = [effective_deadline (timeout it) (matchTimeout it)]
                /\ timeout (closure (generator_next w it g)) =
                   (if completes (effective_deadline (timeout it) (matchTimeout it)) (work w)
                    then charge (timeout it) (elapsed w) else timeout it)).
  { destruct g as [|c|]; [|apply Hturn|congruence].
    rewrite (generator_next_start _ _ Hg). apply Hturn. }
  destruct Hst as [Hreq Hbud]. split; [assumption|]. split; [assumption|].
  intros Hinf. split.
  - rewrite Hbud. clear Hbud Hturn. rewrite Hinf.
    destruct (completes _ _); reflexivity.
  - intros fuel clock n. apply pull_keeps_infinity, Hinf.
Qed.

Lemma step_deadline_and_charge_witness :
  let it := mkIterable digits_g "a1 b22 c333" (Finite 10) (Finite 4) in
  let st := generator_next (mkSample (1#2)%Q (3#2)%Q) it (Symbol_iterator it) in
  let free := mkIterable digits_g "a1 b22 c333" PosInfinity PosInfinity in
  global (regex it) = true
  /\ Symbol_iterator it <> Completed
  /\ (0 <= 3#2)%Q /\ (Qceiling (3#2) < 2 ^ 53)%Z /\ (Z.abs 10 < 2 ^ 53)%Z
  /\ requested st = [Some (Finite 4)]
  /\ timeout (closure st) = Finite 8
  /\ requested (generator_next (steady 0) free (Symbol_iterator free)) = [None]
  /\ timeout (after (spread steady 0 free)) = PosInfinity.
Proof.
  cbv zeta. split; [reflexivity|]. split; [discriminate|].
  assert (He : (0 <= 3#2)%Q) by discriminate.
  assert (Hc : (Qceiling (3#2) < 2 ^ 53)%Z) by reflexivity.
  assert (Hs : (Z.abs 10 < 2 ^ 53)%Z) by reflexivity.
  split; [exact He|]. split; [exact Hc|]. split; [exact Hs|].
  pose proof (step_deadline_and_charge
                (mkSample (1#2)%Q (3#2)%Q)
                (mkIterable digits_g "a1 b22 c333" (Finite 10) (Finite 4))
                SuspendedStart eq_refl) as H.
  destruct H as (Hreq & Hbud & _);
    [discriminate|exact He|exact Hc|intros r [= <-]; exact Hs|].
  split; [exact Hreq|]. split; [exact Hbud|].
  pose proof (step_deadline_and_charge
                (steady 0)
                (mkIterable digits_g "a1 b22 c333" PosInfinity PosInfinity)
                SuspendedStart eq_refl) as H.
  destruct H as (Hreq' & _ & Hinf);
    [discriminate|discriminate|reflexivity|intros r; discriminate|].
  split; [exact Hreq'|].
  exact (proj2 (Hinf eq_refl) 13 steady 0).
Defined.

Lemma Qceiling_nonneg (e : Q) : (0 <= e)%Q -> (0 <= Qceiling e)%Z.
Proof. intros H. apply Qceiling_resp_le in H. exact H. Qed.

(** The loop does not look at the budget.  [matches(/\d+/g, "a1 b22 c333",
    {timeout: 1})]: the first turn is measured at half a millisecond and
    charged one, which leaves a budget of zero with the generator suspended
    at its [yield]; the next call takes a guarded turn all the same, with a
    deadline of zero.  And a first turn measured at a millisecond and a half
    is charged two, which leaves a budget of minus one. *)
Lemma spent_budget_is_not_watched :
  ~ (forall (w : sample) (it : Iterable) (g : Generator),
       global (regex it) = true -> g <> Completed ->
       (0 <= elapsed w)%Q -> timeout it = Finite 0 ->
       requested (generator_next w it g) = [])
  /\
  ~ (forall (w : sample) (it : Iterable) (g : Generator) (r : Z),
       global (regex it) = true -> g <> Completed ->
       (0 <= elapsed w)%Q -> timeout it = Finite r -> (0 <= r)%Z ->
       exists r', timeout (closure (generator_next w it g)) = Finite r'
                  /\ (0 <= r')%Z).
Proof.
  pose (it := mkIterable digits_g "a1 b22 c333" (Finite 1) PosInfinity).
  split; intros H.
  - pose (first := generator_next (mkSample (1#2)%Q (1#2)%Q) it (Symbol_iterator it)).
    assert (Hzero : timeout (closure first) = Finite 0) by (vm_compute; reflexivity).
    assert (Hrun : generator first <> Completed) by (vm_compute; discriminate).
    assert (Hg : global (regex (closure first)) = true) by (vm_compute; reflexivity).
    assert (Hreq : requested (generator_next (mkSample (1#2)%Q (1#2)%Q)
                                (closure first) (generator first))
                   = [Some (Finite 0)]) by (vm_compute; reflexivity).
    rewrite (H _ _ _ Hg Hrun) in Hreq; [discriminate| |assumption].
    vm_compute. discriminate.
  - destruct (H (mkSample (1#2)%Q (3#2)%Q) it (Symbol_iterator it) 1%Z)
      as (r' & Hr' & Hpos); try reflexivity.
    + discriminate.
    + vm_compute. discriminate.
    + lia.
    + vm_compute in Hr'. injection Hr' as <-. lia.
Qed.

(** C2.  The code at the failing input.  [[...matches(/\d+/g,
    "a1 b22 c333", {timeout: 3})]] with turns of half a millisecond: three
    turns yield the three matches and are charged 1 ms each, which brings
    the budget to zero.  The sequence does not end there: a fourth guarded
    turn is asked for, with a [timeout] option of 0, the isolation layer
    refuses that option, and the refusal, which is no timeout error, is
    thrown at the consumer.  With a first turn measured at 1.5 ms under a
    budget of 1 ms the budget becomes -1, and the next turn is asked for
    with -1. *)
Theorem spent_budget_reaches_the_vm :
  let it := mkIterable digits_g "a1 b22 c333" (Finite 3) PosInfinity in
  let p := spread steady 0 it in
  let it1 := mkIterable digits_g "a1 b22 c333" (Finite 1) PosInfinity in
  let st := generator_next (mkSample (1#2)%Q (3#2)%Q) it1 (Symbol_iterator it1) in
  matches digits_g "a1 b22 c333" (mkOptions (Some (Finite 3)) None) = Normal it
  /\ map (fun m => (match_ m, index m)) (yielded p)
     = [("1", 1); ("22", 4); ("333", 8)]
  /\ deadlines p
     = [Some (Finite 3); Some (Finite 2); Some (Finite 1); Some (Finite 0)]
  /\ ending p = Some (Throw ERR_OUT_OF_RANGE)
  /\ isTimeoutError ERR_OUT_OF_RANGE = false
  /\ timeout (after p) = Finite 0
  /\ timeout (closure st) = Finite (-1)
  /\ requested (generator_next (steady 1) (closure st) (generator st))
     = [Some (Finite (-1))].
Proof. cbv zeta. repeat split; vm_compute; reflexivity. Qed.



Lemma matches_iterable (regex : RegExp) (string_ : string)
    (options : MatchesOptions) (it : Iterable) :
  matches regex string_ options = Normal it ->
  global regex = true /\ SuperRegex.regex it = regex
  /\ SuperRegex.string_ it = string_.
Proof.
  unfold matches. destruct (global regex); cbn [negb]; [|discriminate].
  intros [= <-]. repeat split.
Qed.

Lemma increasing_indices (l : list ExecArray) :
  StronglySorted (fun a b => exec_index a < exec_index b) l ->
  StronglySorted lt (map index (map resultToMatch l)).
Proof.
  induction 1 as [|a l Hl IH Ha]; cbn [map]; constructor; [assumption|].
  rewrite map_map, Forall_map. exact Ha.
Qed.

Lemma forward_scan_pairs (R : RegExp) (str : string) (fuel i : nat) :
  map resultToMatch (forward_scan fuel R str i)
  = map (expected_match str) (scan_from fuel R str i).
Proof.
  revert i. induction fuel as [|fuel IH]; intros i; cbn [forward_scan scan_from];
    [reflexivity|].
  destruct (String.length str <? i)%nat; [reflexivity|].
  destruct (locate R str i) as [[j r]|]; [|reflexivity].
  cbn [map]. rewrite IH. reflexivity.
Qed.

(** C6, as stated, fails twice.  In its example: in "a1 b22 c333" the text
    "22" starts at index 4 and "333" at index 8, and that is what [matches]
    yields for [/\d+/g]; at index 5 the subject reads "2 ".  And for a regex
    that does not stand at the start: [matches] hands the caller's regex to
    [matchAll], which scans from its [lastIndex], so that with [lastIndex]
    3 the match "1" of the exhaustive scan is not yielded. *)
Lemma example_indices_are_4_and_8 :
  let it := mkIterable digits_g "a1 b22 c333" PosInfinity PosInfinity in
  let it3 := mkIterable (set_lastIndex 3 digits_g) "a1 b22 c333"
                        PosInfinity PosInfinity in
  matches digits_g "a1 b22 c333" no_options = Normal it
  /\ map (fun m => (match_ m, index m)) (yielded (spread steady 0 it))
     = [("1", 1); ("22", 4); ("333", 8)]
  /\ map (fun m => (match_ m, index m)) (yielded (spread steady 0 it))
     <> [("1", 1); ("22", 5); ("333", 9)]
  /\ String.substring 5 2 "a1 b22 c333" = "2 "
  /\ matches (set_lastIndex 3 digits_g) "a1 b22 c333" no_options = Normal it3
  /\ map (fun m => (match_ m, index m)) (yielded (spread steady 0 it3))
     = [("22", 4); ("333", 8)]
  /\ map (fun m => (match_ m, index m))
         (map (expected_match "a1 b22 c333")
              (exhaustive_scan (set_lastIndex 3 digits_g) "a1 b22 c333"))
     = [("1", 1); ("22", 4); ("333", 8)].
Proof.
  cbv zeta. split; [reflexivity|].
  assert (H : map (fun m => (match_ m, index m))
                  (yielded (spread steady 0
                     (mkIterable digits_g "a1 b22 c333" PosInfinity PosInfinity)))
              = [("1", 1); ("22", 4); ("333", 8)]) by (vm_compute; reflexivity).
  split; [exact H|]. split; [rewrite H; discriminate|].
  split; [reflexivity|]. split; [reflexivity|].
  split; vm_compute; reflexivity.
Qed.

(** C6, amended.  For a regex with the global flag that stands at the start
    of the subject ([lastIndex] 0), [matches] with both budgets unbounded
    yields, whatever the timing, the matches of the plain exhaustive forward
    scan of the subject, in its order: each with the index the pattern
    matched at, the text the subject holds there, the captures of the
    unnamed groups, the named groups and the subject as input; the indices
    are strictly increasing; then the sequence ends normally, no deadline
    having been requested.  For [/\d+/g] on "a1 b22 c333" these are "1" at
    1, "22" at 4 and "333" at 8. *)
Theorem matches_unbounded_is_plain_scan (regex : RegExp) (string_ : string)
    (options : MatchesOptions) (it : Iterable) (clock : nat -> sample)
    (n : nat) :
  matches regex string_ options = Normal it ->
  timeout it = PosInfinity -> matchTimeout it = PosInfinity ->
  lastIndex regex = 0 ->
  let p := spread clock n it in
  yielded p = map (expected_match string_) (exhaustive_scan regex string_)
  /\ ending p = Some (Normal tt)
  /\ StronglySorted lt (map index (yielded p))
  /\ Forall (fun d => d = None) (deadlines p)
  /\ map (fun m => (match_ m, index m))
         (yielded (spread clock n
            (mkIterable digits_g "a1 b22 c333" PosInfinity PosInfinity)))
     = [("1", 1); ("22", 4); ("333", 8)].
Proof.
  assert (Hscan : forall R str it',
            global R = true -> SuperRegex.regex it' = R ->
            SuperRegex.string_ it' = str ->
            timeout it' = PosInfinity -> matchTimeout it' = PosInfinity ->
            spread clock n it' =
            mkPulled (map resultToMatch (plain_scan R str)) (Some (Normal tt)) it'
                     (repeat None (S (List.length (plain_scan R str))))).
  { intros R str it' Hg Hr Hs Ht Hm. unfold spread, Symbol_iterator.
    rewrite pull_start by (rewrite Hr; exact Hg). rewrite Hr, Hs.
    replace (String.length str + 2) with (S (String.length str + 1)) by lia.
    rewrite (pull_unbounded R str clock it' Hg Ht Hm) by lia. reflexivity. }
  intros Hm Ht Hmt Hl. cbv zeta.
  destruct (matches_iterable _ _ _ _ Hm) as (Hg & Hr & Hs).
  rewrite (Hscan regex string_ it Hg Hr Hs Ht Hmt). cbn [yielded ending deadlines].
  split; [|split; [reflexivity|split; [|split]]].
  - unfold plain_scan, exhaustive_scan. rewrite Hl. apply forward_scan_pairs.
  - apply increasing_indices, forward_scan_increasing.
  - apply Forall_forall. intros d Hd. apply repeat_spec in Hd. exact Hd.
  - rewrite (Hscan digits_g "a1 b22 c333") by reflexivity.
    vm_compute. reflexivity.
Qed.

Lemma matches_unbounded_is_plain_scan_witness :
  let it := mkIterable digits_g "a1 b22 c333" PosInfinity PosInfinity in
  matches digits_g "a1 b22 c333" no_options = Normal it
  /\ timeout it = PosInfinity /\ matchTimeout it = PosInfinity
  /\ lastIndex digits_g = 0
  /\ yielded (spread steady 0 it)
     = map (expected_match "a1 b22 c333")
           (exhaustive_scan digits_g "a1 b22 c333").
Proof.
  cbv zeta. split; [reflexivity|]. split; [reflexivity|]. split; [reflexivity|].
  split; [reflexivity|].
  exact (proj1 (matches_unbounded_is_plain_scan
                  digits_g "a1 b22 c333" no_options
                  (mkIterable digits_g "a1 b22 c333" PosInfinity PosInfinity)
                  steady 0 eq_refl eq_refl eq_refl eq_refl)).
Defined.

Lemma Qceiling_pos (e : Q) : (0 < e)%Q -> (1 <= Qceiling e)%Z.
Proof.
  intros H. pose proof (Qle_ceiling e) as Hc.
  assert (Hlt : (inject_Z 0 < inject_Z (Qceiling e))%Q)
    by (eapply Qlt_le_trans; [exact H|exact Hc]).
  rewrite <- Zlt_Qlt in Hlt. lia.
Qed.

Lemma charged_at_least (clock : nat -> sample) :
  (forall k, (0 < elapsed (clock k))%Q) ->
  forall m n, (Z.of_nat m <= charged clock n m)%Z.
Proof.
  intros Hclock. induction m as [|m IH]; intros n; cbn [charged]; [lia|].
  pose proof (Qceiling_pos _ (Hclock n)). pose proof (IH (S n)). lia.
Qed.

(** C10, as stated, fails for a large budget: [timeout] is a double, and a
    budget of 2^60 ms charged 1 ms per turn is 2^60 ms still.  After a whole
    iteration over "a1 b22 c333" that yielded three matches, the next
    iteration starts from the original budget. *)
Lemma huge_budget_is_not_consumed :
  let it := mkIterable digits_g "a1 b22 c333" (Finite (2 ^ 60)) (Finite 1000) in
  let first := spread steady 0 it in
  List.length (yielded first) = 3
  /\ ending first = Some (Normal tt)
  /\ timeout (after first) = Finite (2 ^ 60)
  /\ ~ (forall (clock : nat -> sample) (fuel n : nat) (it : Iterable) (r : Z),
          timeout it = Finite r ->
          (forall k, (0 < elapsed (clock k))%Q) ->
          exists r',
            timeout (after (pull fuel clock n it (Symbol_iterator it))) = Finite r'
            /\ (r' <= r - Z.of_nat (List.length
                         (yielded (pull fuel clock n it (Symbol_iterator it)))))%Z).
Proof.
  cbv zeta. split; [vm_compute; reflexivity|]. split; [vm_compute; reflexivity|].
  split; [vm_compute; reflexivity|].
  intros H.
  destruct (H steady 13 0
              (mkIterable digits_g "a1 b22 c333" (Finite (2 ^ 60)) (Finite 1000))
              (2 ^ 60)%Z eq_refl) as (r' & Hr' & Hle).
  - intros k. reflexivity.
  - vm_compute in Hr'. injection Hr' as <-.
    vm_compute in Hle. apply Hle. reflexivity.
Qed.

(** C10, amended.  The iterable can be iterated again: the new generator
    has not started, and its first [next()] builds a cursor on the subject
    from where the regex stands.  But the closure it runs in is the one the
    earlier iteration left: for a finite budget below 2^53 ms, where doubles
    subtract exactly, its [timeout] is the original one less what the
    earlier turns were charged, at least one millisecond for every match
    that was yielded, and that is the budget the first deadline of the new
    iteration is taken from. *)
Theorem iterations_share_the_budget (clock : nat -> sample) (fuel n : nat)
    (it : Iterable) (r : Z) :
  timeout it = Finite r -> (Z.abs r < 2 ^ 53)%Z ->
  (forall k, (0 < elapsed (clock k))%Q
             /\ (Qceiling (elapsed (clock k)) < 2 ^ 53)%Z) ->
  let first := pull fuel clock n it (Symbol_iterator it) in
  let again := Symbol_iterator (after first) in
  again = SuspendedStart
  /\ regex (after first) = regex it
  /\ string_ (after first) = string_ it
  /\ matchTimeout (after first) = matchTimeout it
  /\ (exists m,
        List.length (yielded first) <= m <= S (List.length (yielded first))
        /\ timeout (after first) = Finite (r - charged clock n m))
  /\ (exists r', timeout (after first) = Finite r'
                 /\ (r' <= r - Z.of_nat (List.length (yielded first)))%Z)
  /\ (global (regex it) = true ->
      forall w,
        generator_next w (after first) again
        = loop_turn w (after first)
                    (cursor_at (regex it) (string_ it) (lastIndex (regex it)))
        /\ requested (generator_next w (after first) again)
           = [effective_deadline (timeout (after first)) (matchTimeout it)]).
Proof.
  intros Hfin Hsafe Hclock. cbv zeta. unfold Symbol_iterator.
  destruct (pull_frame clock fuel n it SuspendedStart) as (Hr & Hs & Hm).
  cbv zeta in Hr, Hs, Hm.
  assert (Hclock' : forall k, (0 <= elapsed (clock k))%Q
                              /\ (Qceiling (elapsed (clock k)) < 2 ^ 53)%Z).
  { intros k. destruct (Hclock k) as [H1 H2]. split; [|exact H2].
    apply Qlt_le_weak, H1. }
  destruct (pull_budget clock Hclock' fuel n it SuspendedStart r Hfin Hsafe)
    as (m & Hlen & Ht). cbv zeta in Hlen, Ht.
  split; [reflexivity|]. repeat (split; [assumption|]).
  split; [exists m; split; assumption|]. split.
  - eexists; split; [exact Ht|].
    pose proof (charged_at_least clock (fun k => proj1 (Hclock k)) m n). lia.
  - intros Hg w.
    rewrite generator_next_start by (rewrite Hr; exact Hg).
    rewrite Hr, Hs. split; [reflexivity|].
    rewrite loop_turn_requested, step_timeout_effective, Hm. reflexivity.
Qed.

Lemma iterations_share_the_budget_witness :
  let it := mkIterable digits_g "a1 b22 c333" (Finite 10) PosInfinity in
  let first := spread steady 0 it in
  let second := spread steady 4 (after first) in
  (Z.abs 10 < 2 ^ 53)%Z
  /\ (forall k, (0 < elapsed (steady k))%Q
                /\ (Qceiling (elapsed (steady k)) < 2 ^ 53)%Z)
  /\ global (regex it) = true
  /\ timeout (after first) = Finite 6
  /\ requested (generator_next (steady 4) (after first)
                               (Symbol_iterator (after first)))
     = [Some (Finite 6)]
  /\ List.length (yielded second) = 3
  /\ timeout (after second) = Finite 2
  /\ exists r', timeout (after first) = Finite r'
                /\ (r' <= 10 - Z.of_nat (List.length (yielded first)))%Z.
Proof.
  cbv zeta.
  assert (Hs : (Z.abs 10 < 2 ^ 53)%Z) by reflexivity.
  assert (Hc : forall k, (0 < elapsed (steady k))%Q
                         /\ (Qceiling (elapsed (steady k)) < 2 ^ 53)%Z)
    by (intros k; split; reflexivity).
  split; [exact Hs|]. split; [exact Hc|].
  split; [reflexivity|]. split; [vm_compute; reflexivity|].
  pose proof (iterations_share_the_budget steady 13 0
                (mkIterable digits_g "a1 b22 c333" (Finite 10) PosInfinity)
                10%Z eq_refl Hs Hc)
    as (_ & _ & _ & _ & _ & Hless & Hnext).
  split.
  - destruct (Hnext eq_refl (steady 4)) as [_ H].
    etransitivity; [exact H|]. vm_compute. reflexivity.
  - split; [vm_compute; reflexivity|]. split; [vm_compute; reflexivity|].
    exact Hless.
Defined.

(* ------------------------------------------------------------------ *)
(** * Further runs of the model *)
(* ------------------------------------------------------------------ *)

(** [matchAll] copies [lastIndex] to its cursor: a regex that stands at
    position 3 yields the matches from there on. *)
Example matches_resumes_at_lastIndex :
  map (fun m => (match_ m, index m))
      (yielded (spread steady 0
         (mkIterable (set_lastIndex 3 digits_g) "a1 b22 c333"
                     PosInfinity PosInfinity)))
  = [("22", 4); ("333", 8)].
Proof. vm_compute. reflexivity. Qed.

(** Empty matches move the cursor one position on: [/a*/g] on "baac". *)
Example empty_matches_advance :
  map (fun m => (match_ m, index m))
      (yielded (spread steady 0
         (mkIterable (Pattern.global_regex
                        (Pattern.Star (Pattern.Class (Pattern.char "a"))))
                     "baac" PosInfinity PosInfinity)))
  = [("", 0); ("aa", 1); ("", 3); ("", 4)].
Proof. vm_compute. reflexivity. Qed.

(** A turn that overruns [matchTimeout] ends the sequence after the matches
    found so far. *)
Example slow_second_turn :
  let clock := fun n => mkSample (if Nat.eqb n 1 then 3#2 else 1#2)%Q 2%Q in
  let p := spread clock 0
             (mkIterable digits_g "a1 b22 c333" PosInfinity (Finite 1)) in
  map (fun m => (match_ m, index m)) (yielded p) = [("1", 1)]
  /\ ending p = Some (Normal tt)
  /\ deadlines p = [Some (Finite 1); Some (Finite 1)].
Proof. vm_compute. repeat split; reflexivity. Qed.

(* ------------------------------------------------------------------ *)
(** * More about the guard *)
(* ------------------------------------------------------------------ *)

(** X1.  The wrapper's outcome does not depend on the context it is given:
    whatever earlier calls have left in [returnValue], a call returns or
    throws what it would on a fresh context.  Afterwards [returnValue] holds
    the result of this call when it returned, and is what it was before
    when the call threw or hung. *)
Theorem wrapper_ignores_context_history {A V : Type}
    (f : A -> run (option V)) (timeout : option number) (a : A)
    (c : context V) :
  fst (functionTimeout f timeout a c)
  = fst (functionTimeout f timeout a createContext)
  /\ returnValue (snd (functionTimeout f timeout a c))
     = match fst (functionTimeout f timeout a c) with
       | Normal v => v
       | _ => returnValue c
       end
  /\ forall (f' : A -> run (option V)) timeout' a',
       fst (functionTimeout f' timeout' a' (snd (functionTimeout f timeout a c)))
       = fst (functionTimeout f' timeout' a' createContext).
Proof.
  split; [|split].
  - rewrite !functionTimeout_outcome. reflexivity.
  - unfold functionTimeout, runInNewContext. cbn.
    destruct (timeout_in_range timeout); cbn; [|reflexivity].
    destruct (result (f a)); cbn.
    + destruct (breached timeout (took (f a))); reflexivity.
    + destruct (breached timeout (took (f a))); reflexivity.
    + destruct timeout; reflexivity.
  - intros f' timeout' a'. rewrite !functionTimeout_outcome. reflexivity.
Qed.

Lemma append_length (x y : string) :
  String.length (x ++ y) = String.length x + String.length y.
Proof. induction x as [|c x IH]; cbn; [reflexivity|]. rewrite IH. reflexivity. Qed.

Lemma append_right_cancel (x y z : string) : x ++ z = y ++ z -> x = y.
Proof.
  revert y. induction x as [|c x IH]; intros [|d y] H; cbn in H.
  - reflexivity.
  - exfalso. apply (f_equal String.length) in H. cbn in H.
    rewrite append_length in H. lia.
  - exfalso. apply (f_equal String.length) in H. cbn in H.
    rewrite append_length in H. lia.
  - injection H as -> H. f_equal. apply IH, H.
Qed.

(** X2.  The name of the wrapper tells the wrapped functions apart: two
    functions with different non-empty names get different wrapper names,
    and none of them gets the name of the wrapper of an unnamed function,
    [functionTimeout(<anonymous>)], unless it is itself called
    [<anonymous>]. *)
Theorem wrappedFunction_name_injective (n1 n2 : string) :
  n1 <> "" -> n2 <> "" ->
  (wrappedFunction_name n1 = wrappedFunction_name n2 -> n1 = n2)
  /\ wrappedFunction_name "" = "functionTimeout(<anonymous>)"
  /\ (wrappedFunction_name n1 = wrappedFunction_name "" -> n1 = "<anonymous>").
Proof.
  intros H1 H2. unfold wrappedFunction_name.
  destruct (String.eqb_spec n1 ""); [contradiction|].
  destruct (String.eqb_spec n2 ""); [contradiction|].
  split; [|split].
  - intros H. cbn in H.
    repeat match type of H with String _ _ = String _ _ => injection H as H end.
    apply append_right_cancel in H. exact H.
  - reflexivity.
  - intros H. cbn in H.
    repeat match type of H with String _ _ = String _ _ => injection H as H end.
    apply (append_right_cancel n1 "<anonymous>" ")"). exact H.
Qed.

Lemma wrappedFunction_name_injective_witness :
  "isEven" <> "" /\ "isOdd" <> ""
  /\ wrappedFunction_name "isEven" = "functionTimeout(isEven)"
  /\ wrappedFunction_name "isEven" <> wrappedFunction_name "isOdd".
Proof.
  assert (H1 : "isEven" <> "") by discriminate.
  assert (H2 : "isOdd" <> "") by discriminate.
  split; [exact H1|]. split; [exact H2|]. split; [reflexivity|].
  intros H.
  pose proof (proj1 (wrappedFunction_name_injective "isEven" "isOdd" H1 H2) H) as E.
  discriminate E.
Defined.

(* ------------------------------------------------------------------ *)
(** * More about isMatch and firstMatch *)
(* ------------------------------------------------------------------ *)

Lemma exec_clone (R : RegExp) (str : string) :
  fst (exec (structuredClone R) str) =
  match locate R str 0 with
  | None => None
  | Some (i, r) => Some (make_ExecArray str i r)
  end.
Proof.
  unfold exec, structuredClone, RegExpBuiltinExec.
  destruct R as [p g s l].
  cbn [set_lastIndex global sticky lastIndex pattern].
  replace (if g || s then 0 else 0) with 0 by (destruct (g || s); reflexivity).
  change (String.length str <? 0)%nat with false. cbv iota.
  change (locate (mkRegExp p g s 0) str 0) with (locate (mkRegExp p g s l) str 0).
  destruct (locate _ str 0) as [[i r]|]; reflexivity.
Qed.

Lemma test_clone (R : RegExp) (str : string) :
  fst (test (structuredClone R) str) =
  match locate R str 0 with Some _ => true | None => false end.
Proof.
  pose proof (exec_clone R str) as H. unfold exec in H. unfold test.
  destruct (RegExpBuiltinExec (structuredClone R) str) as [[a|] R'];
    cbn [fst] in *; destruct (locate R str 0) as [[i r]|];
    congruence || reflexivity.
Qed.

Lemma isMatch_value (R : RegExp) (str : string) (t : option number) (d : Q) :
  fst (isMatch R str t d) =
  if negb (timeout_in_range t) then Throw ERR_OUT_OF_RANGE
  else if breached t d then Normal (Some false)
  else Normal (Some (match locate R str 0 with Some _ => true | None => false end)).
Proof.
  unfold isMatch.
  set (body := fun _ : unit =>
                 mkRun d (Normal (Some (fst (test (structuredClone R) str))))).
  pose proof (functionTimeout_outcome body t tt createContext) as Hout.
  destruct (functionTimeout body t tt createContext) as [o ctx].
  cbn [fst] in *. subst o. cbn [result took body]. rewrite test_clone.
  destruct (timeout_in_range t); cbn [negb]; [|reflexivity].
  destruct (breached t d); reflexivity.
Qed.

Lemma firstMatch_value (R : RegExp) (str : string) (t : option number) (d : Q) :
  fst (firstMatch R str t d) =
  if negb (timeout_in_range t) then Throw ERR_OUT_OF_RANGE
  else if breached t d then Normal None
  else
    match locate R str 0 with
    | None => Normal None
    | Some (i, r) => Normal (Some (resultToMatch (make_ExecArray str i r)))
    end.
Proof.
  unfold firstMatch.
  set (body := fun _ : unit =>
                 mkRun d (Normal (Some (fst (exec (structuredClone R) str))))).
  pose proof (functionTimeout_outcome body t tt createContext) as Hout.
  destruct (functionTimeout body t tt createContext) as [o ctx].
  cbn [fst] in *. subst o. cbn [result took body]. rewrite exec_clone.
  destruct (timeout_in_range t); cbn [negb]; [|reflexivity].
  destruct (breached t d); [reflexivity|].
  destruct (locate R str 0) as [[i r]|]; reflexivity.
Qed.

Lemma firstMatch_regex_after (R : RegExp) (str : string)
    (t : option number) (d : Q) :
  snd (firstMatch R str t d) = R.
Proof.
  unfold firstMatch.
  destruct (functionTimeout _ t tt createContext) as [[[[a|]|]|e|] ctx];
    try reflexivity.
  destruct (isTimeoutError e); reflexivity.
Qed.

(** The search stops at the first position where the pattern matches. *)
Lemma search_first (m : matcher) (str : string) (fuel i j : nat) (r : submatch) :
  search m str fuel i = Some (j, r) ->
  m str j = Some r /\ forall k, i <= k < j -> m str k = None.
Proof.
  revert i. induction fuel as [|fuel IH]; intros i; cbn.
  - destruct (m str i) eqn:E; intros [= <- <-]. split; [exact E|]. intros k Hk. lia.
  - destruct (m str i) eqn:E.
    + intros [= <- <-]. split; [exact E|]. intros k Hk. lia.
    + intros H. apply IH in H. destruct H as [Hj Hk]. split; [exact Hj|].
      intros k Hik. destruct (Nat.eq_dec k i) as [->|]; [exact E|].
      apply Hk. lia.
Qed.

Lemma locate_first (R : RegExp) (str : string) (i j : nat) (r : submatch) :
  locate R str i = Some (j, r) ->
  pattern R str j = Some r /\ forall k, i <= k < j -> pattern R str k = None.
Proof.
  unfold locate. destruct (sticky R).
  - destruct (pattern R str i) eqn:E; intros [= <- <-].
    split; [exact E|]. intros k Hk. lia.
  - apply search_first.
Qed.

(** The search misses no position up to the one its fuel reaches. *)
Lemma search_complete (m : matcher) (str : string) (fuel i k : nat) (r : submatch) :
  m str k = Some r -> i <= k <= i + fuel -> search m str fuel i <> None.
Proof.
  intros Hk. revert i. induction fuel as [|fuel IH]; intros i Hi; cbn.
  - assert (k = i) by lia. subst k. rewrite Hk. discriminate.
  - destruct (m str i) eqn:E; [discriminate|].
    apply IH. destruct (Nat.eq_dec k i) as [->|]; [congruence|lia].
Qed.

Lemma substring_again (n m : nat) (s : string) :
  String.substring n (String.length (String.substring n m s)) s
  = String.substring n m s.
Proof.
  revert m s. induction n as [|n IHn]; intros m s.
  - revert s. induction m as [|m IHm]; intros [|c s]; cbn; try reflexivity.
    f_equal. apply IHm.
  - destruct s as [|c s]; cbn; [reflexivity|]. apply IHn.
Qed.

Lemma substring_length (n m : nat) (s : string) :
  String.length (String.substring n m s) <= m
  /\ n + String.length (String.substring n m s) <= Nat.max n (String.length s).
Proof.
  revert m s. induction n as [|n IHn]; intros m s.
  - revert s. induction m as [|m IHm]; intros [|c s]; cbn; try lia.
    specialize (IHm s). cbn in IHm. lia.
  - destruct s as [|c s]; cbn; [lia|]. specialize (IHn m s). lia.
Qed.

(** X3.  [isMatch] gives no false positive: it returns [true] only when
    the pattern matches at some position of the subject, whatever the
    deadline and the timing.  And when the guarded test runs to its end, a
    regex without the sticky flag that matches somewhere is reported as
    matching. *)
Theorem isMatch_true_is_a_match (regex : RegExp) (string_ : string)
    (timeout : option number) (d : Q) :
  (fst (isMatch regex string_ timeout d) = Normal (Some true) ->
   exists i r, i <= String.length string_ /\ pattern regex string_ i = Some r)
  /\ (completes timeout d = true -> sticky regex = false ->
      forall i r, i <= String.length string_ ->
                  pattern regex string_ i = Some r ->
                  fst (isMatch regex string_ timeout d) = Normal (Some true)).
Proof.
  rewrite isMatch_value. split.
  - destruct (negb _); [discriminate|].
    destruct (breached _ _); [discriminate|].
    destruct (locate regex string_ 0) as [[i r]|] eqn:E; [|discriminate].
    intros _. exists i, r. split.
    + apply locate_bounds in E; lia.
    + apply (locate_first _ _ _ _ _ E).
  - unfold completes. intros Hc Hs i r Hi Hm.
    apply andb_true_iff in Hc. destruct Hc as [Hok Hnb].
    rewrite Hok. cbn [negb]. apply negb_true_iff in Hnb. rewrite Hnb.
    unfold locate. rewrite Hs.
    pose proof (search_complete (pattern regex) string_
                  (String.length string_ - 0) 0 i r Hm) as Hfound.
    destruct (search _ _ _ _); [reflexivity|]. exfalso. apply Hfound; [lia|reflexivity].
Qed.

Lemma isMatch_true_is_a_match_witness :
  fst (isMatch digits_g "ab 7" (Some (Finite 5)) (1#2)%Q) = Normal (Some true)
  /\ exists i r, i <= 4 /\ pattern digits_g "ab 7" i = Some r.
Proof.
  assert (Hc : completes (Some (Finite 5)) (1#2)%Q = true) by reflexivity.
  assert (Hm : pattern digits_g "ab 7" 3 = Some (mkSubmatch 1 [] None))
    by (vm_compute; reflexivity).
  pose proof (proj2 (isMatch_true_is_a_match digits_g "ab 7" (Some (Finite 5)) (1#2)%Q)
                Hc eq_refl 3 (mkSubmatch 1 [] None)) as H.
  assert (Ht : fst (isMatch digits_g "ab 7" (Some (Finite 5)) (1#2)%Q)
               = Normal (Some true)).
  { apply H; [cbn; lia|exact Hm]. }
  split; [exact Ht|].
  exact (proj1 (isMatch_true_is_a_match digits_g "ab 7" (Some (Finite 5)) (1#2)%Q) Ht).
Defined.

(** X4.  [isMatch] and [firstMatch] agree: for the same regex, subject,
    timeout and timing, [isMatch] returns [true] exactly when [firstMatch]
    returns a match and [false] exactly when it returns [undefined], and
    when one throws the other throws the same error. *)
Theorem isMatch_agrees_with_firstMatch (regex : RegExp) (string_ : string)
    (timeout : option number) (d : Q) :
  match fst (isMatch regex string_ timeout d),
        fst (firstMatch regex string_ timeout d) with
  | Normal (Some b), Normal m =>
      b = match m with Some _ => true | None => false end
  | Throw e, Throw e' => e = e'
  | _, _ => False
  end.
Proof.
  rewrite isMatch_value, firstMatch_value.
  destruct (negb _); [reflexivity|].
  destruct (breached _ _); [reflexivity|].
  destruct (locate regex string_ 0) as [[i r]|]; reflexivity.
Qed.

(** X5.  The match [firstMatch] returns is the leftmost one: the pattern
    matches at its index and at no position before it.  The index lies
    within the subject, and the text of the match is what the subject
    holds there: taking as many characters as the match has, at its index,
    out of its [input] gives the match back. *)
Theorem firstMatch_is_leftmost (regex : RegExp) (string_ : string)
    (timeout : option number) (d : Q) (m : Match) :
  fst (firstMatch regex string_ timeout d) = Normal (Some m) ->
  pattern regex string_ (index m) <> None
  /\ (forall k, k < index m -> pattern regex string_ k = None)
  /\ index m <= String.length string_
  /\ index m + String.length (match_ m) <= String.length string_
  /\ input m = string_
  /\ String.substring (index m) (String.length (match_ m)) (input m) = match_ m.
Proof.
  rewrite firstMatch_value.
  destruct (negb _); [discriminate|].
  destruct (breached _ _); [discriminate|].
  destruct (locate regex string_ 0) as [[i r]|] eqn:E; [|discriminate].
  intros [= <-]. cbn [resultToMatch make_ExecArray index match_ input
                      exec_0 exec_index exec_input].
  destruct (locate_first _ _ _ _ _ E) as [Hi Hk].
  apply locate_bounds in E; [|lia].
  split; [congruence|]. split; [intros k Hlt; apply Hk; lia|].
  split; [lia|]. split.
  - pose proof (substring_length i (matched r) string_). lia.
  - split; [reflexivity|]. apply substring_again.
Qed.

Lemma firstMatch_is_leftmost_witness :
  fst (firstMatch digits "abc 12" None (1#2)%Q)
  = Normal (Some (mkMatch "12" 4 [] [] "abc 12"))
  /\ forall k, k < 4 -> pattern digits "abc 12" k = None.
Proof.
  assert (H : fst (firstMatch digits "abc 12" None (1#2)%Q)
              = Normal (Some (mkMatch "12" 4 [] [] "abc 12")))
    by (vm_compute; reflexivity).
  split; [exact H|].
  exact (proj1 (proj2 (firstMatch_is_leftmost digits "abc 12" None (1#2)%Q _ H))).
Defined.

(** X6.  [firstMatch] leaves its regex as it found it and does not look at
    the [lastIndex] it carries, so that two calls in a row on the same
    object give the results they give in the other order. *)
Theorem firstMatch_order_independent (regex : RegExp) (s1 s2 : string)
    (t1 t2 : option number) (d1 d2 : Q) :
  let first := firstMatch regex s1 t1 d1 in
  let second := firstMatch (snd first) s2 t2 d2 in
  let first' := firstMatch regex s2 t2 d2 in
  let second' := firstMatch (snd first') s1 t1 d1 in
  snd first = regex /\ snd second = regex
  /\ fst first = fst second' /\ fst second = fst first'
  /\ (forall i, fst (firstMatch (set_lastIndex i regex) s1 t1 d1) = fst first).
Proof.
  cbv zeta. rewrite !firstMatch_regex_after.
  repeat split; try reflexivity.
  intros i. rewrite !firstMatch_value. reflexivity.
Qed.

Lemma not_breached_later (T T' : Z) (d : Q) :
  (T <= T')%Z ->
  breached (Some (Finite T)) d = false ->
  breached (Some (Finite T')) d = false.
Proof.
  unfold breached. intros HT H.
  apply negb_false_iff in H. apply negb_false_iff.
  apply Qle_bool_iff in H. apply Qle_bool_iff.
  eapply Qle_trans; [exact H|]. rewrite <- Zle_Qle. exact HT.
Qed.

(** X7.  A longer deadline never loses a result: when [isMatch] returns
    [true], or [firstMatch] a match, under a timeout of [T] milliseconds,
    they return the same under any longer timeout the isolation layer takes
    and under no timeout at all. *)
Theorem longer_timeout_keeps_result (regex : RegExp) (string_ : string)
    (T T' : Z) (d : Q) :
  (T <= T')%Z -> (T' <= max_timeout)%Z ->
  (fst (isMatch regex string_ (Some (Finite T)) d) = Normal (Some true) ->
   fst (isMatch regex string_ (Some (Finite T')) d) = Normal (Some true)
   /\ fst (isMatch regex string_ None d) = Normal (Some true))
  /\ (forall m,
        fst (firstMatch regex string_ (Some (Finite T)) d) = Normal (Some m) ->
        fst (firstMatch regex string_ (Some (Finite T')) d) = Normal (Some m)
        /\ fst (firstMatch regex string_ None d) = Normal (Some m)).
Proof.
  intros HT Hmax. unfold max_timeout in Hmax.
  assert (Hlater : timeout_in_range (Some (Finite T)) = true ->
                   breached (Some (Finite T)) d = false ->
                   timeout_in_range (Some (Finite T')) = true
                   /\ breached (Some (Finite T')) d = false).
  { intros Hok Hnb. split; [|apply (not_breached_later T T' d HT Hnb)].
    cbn [timeout_in_range] in *. apply andb_true_iff in Hok.
    apply andb_true_iff. rewrite !Z.leb_le in *. lia. }
  split; [|intros m]; rewrite ?isMatch_value, ?firstMatch_value.
  - destruct (timeout_in_range (Some (Finite T))) eqn:Hok; cbn [negb]; [|discriminate].
    destruct (breached (Some (Finite T)) d) eqn:Hnb; [discriminate|].
    destruct (Hlater eq_refl eq_refl) as [-> ->]. cbn. auto.
  - destruct (timeout_in_range (Some (Finite T))) eqn:Hok; cbn [negb]; [|discriminate].
    destruct (breached (Some (Finite T)) d) eqn:Hnb; [discriminate|].
    destruct (Hlater eq_refl eq_refl) as [-> ->]. cbn. auto.
Qed.

Lemma longer_timeout_keeps_result_witness :
  (5 <= 1000)%Z /\ (1000 <= max_timeout)%Z
  /\ fst (isMatch digits_g "ab 7" (Some (Finite 1000)) (9#2)%Q) = Normal (Some true)
  /\ fst (firstMatch digits "abc 12" None (9#2)%Q)
     = Normal (Some (mkMatch "12" 4 [] [] "abc 12")).
Proof.
  assert (H1 : (5 <= 1000)%Z) by lia.
  assert (H2 : (1000 <= max_timeout)%Z) by (unfold max_timeout; lia).
  split; [exact H1|]. split; [exact H2|]. split.
  - apply (proj1 (longer_timeout_keeps_result digits_g "ab 7" 5 1000 (9#2)%Q H1 H2)).
    vm_compute. reflexivity.
  - apply (proj2 (longer_timeout_keeps_result digits "abc 12" 5 1000 (9#2)%Q H1 H2)).
    vm_compute. reflexivity.
Defined.

(* ------------------------------------------------------------------ *)
(** * More about matches *)
(* ------------------------------------------------------------------ *)

Lemma spread_unbounded (clock : nat -> sample) (n : nat) (it : Iterable) :
  global (regex it) = true ->
  timeout it = PosInfinity -> matchTimeout it = PosInfinity ->
  spread clock n it =
  mkPulled (map resultToMatch (plain_scan (regex it) (string_ it)))
           (Some (Normal tt)) it
           (repeat None (S (List.length (plain_scan (regex it) (string_ it))))).
Proof.
  intros Hg Ht Hm. unfold spread, Symbol_iterator.
  rewrite (pull_start _ _ _ _ Hg).
  replace (String.length (string_ it) + 2)
    with (S (String.length (string_ it) + 1)) by lia.
  rewrite (pull_unbounded _ _ clock it Hg Ht Hm) by lia. reflexivity.
Qed.

(** X8.  With unbounded budgets and a regex that stands at the start
    ([lastIndex] 0), the first match [matches] yields is the match
    [firstMatch] returns, and [matches] yields nothing exactly when
    [firstMatch] returns [undefined]. *)
Theorem firstMatch_is_first_of_matches (regex : RegExp) (string_ : string)
    (options : MatchesOptions) (it : Iterable) (clock : nat -> sample)
    (n : nat) (d : Q) :
  matches regex string_ options = Normal it ->
  timeout it = PosInfinity -> matchTimeout it = PosInfinity ->
  lastIndex regex = 0 ->
  fst (firstMatch regex string_ None d)
  = Normal (hd_error (yielded (spread clock n it))).
Proof.
  intros Hm Ht Hmt Hl.
  destruct (matches_iterable _ _ _ _ Hm) as (Hg & Hr & Hs).
  rewrite spread_unbounded by (rewrite ?Hr; assumption).
  rewrite Hr, Hs, firstMatch_value. cbn [timeout_in_range negb breached yielded].
  unfold plain_scan. rewrite Hl, Nat.add_1_r. cbn [forward_scan].
  change (String.length string_ <? 0)%nat with false. cbv iota.
  destruct (locate regex string_ 0) as [[i r]|]; reflexivity.
Qed.

Lemma firstMatch_is_first_of_matches_witness :
  let it := mkIterable digits_g "a1 b22 c333" PosInfinity PosInfinity in
  matches digits_g "a1 b22 c333" no_options = Normal it
  /\ lastIndex digits_g = 0
  /\ fst (firstMatch digits_g "a1 b22 c333" None (1#2)%Q)
     = Normal (hd_error (yielded (spread steady 0 it))).
Proof.
  cbv zeta. split; [reflexivity|]. split; [reflexivity|].
  exact (firstMatch_is_first_of_matches digits_g "a1 b22 c333" no_options
           (mkIterable digits_g "a1 b22 c333" PosInfinity PosInfinity)
           steady 0 (1#2)%Q eq_refl eq_refl eq_refl eq_refl).
Defined.

Lemma Forall_firstn {A : Type} (P : A -> Prop) (k : nat) (l : list A) :
  Forall P l -> Forall P (firstn k l).
Proof.
  intros H. revert k. induction H as [|a l Ha Hl IH]; intros [|k]; cbn;
    constructor; auto.
Qed.

Lemma StronglySorted_firstn {A : Type} (R : A -> A -> Prop) (k : nat)
    (l : list A) :
  StronglySorted R l -> StronglySorted R (firstn k l).
Proof.
  intros H. revert k. induction H as [|a l Hl IH Ha]; intros [|k]; cbn;
    constructor; [apply IH|apply Forall_firstn, Ha].
Qed.

(** Every match of the scan lies within the subject, at or behind the
    position the scan starts from, and is the text the subject holds at its
    index. *)
Lemma forward_scan_within (R : RegExp) (str : string) (fuel i : nat) :
  Forall (fun a => i <= exec_index a
                   /\ exec_index a + String.length (exec_0 a) <= String.length str
                   /\ exec_input a = str
                   /\ String.substring (exec_index a) (String.length (exec_0 a)) str
                      = exec_0 a)
         (forward_scan fuel R str i).
Proof.
  revert i. induction fuel as [|fuel IH]; intros i; cbn [forward_scan]; [constructor|].
  destruct (Nat.ltb_spec (String.length str) i) as [|Hi]; [constructor|].
  destruct (locate R str i) as [[j r]|] eqn:E; [|constructor].
  apply locate_bounds in E; [|assumption].
  constructor.
  - cbn [make_ExecArray exec_index exec_0 exec_input].
    pose proof (substring_length j (matched r) str).
    repeat split; try lia. apply substring_again.
  - pose proof (behind_further str j r).
    eapply Forall_impl; [|apply IH]. cbn. intros a Ha. intuition lia.
Qed.

(** A match of the scan ends before the next one starts. *)
Lemma forward_scan_apart (R : RegExp) (str : string) (fuel i : nat) :
  StronglySorted
    (fun a b => exec_index a + String.length (exec_0 a) <= exec_index b)
    (forward_scan fuel R str i).
Proof.
  revert i. induction fuel as [|fuel IH]; intros i; cbn [forward_scan]; [constructor|].
  destruct (String.length str <? i)%nat; [constructor|].
  destruct (locate R str i) as [[j r]|] eqn:E; [|constructor].
  constructor; [apply IH|].
  assert (Hb : j + String.length (String.substring j (matched r) str)
               <= behind str j r).
  { unfold behind. pose proof (substring_length j (matched r) str).
    destruct (_ =? 0)%nat; lia. }
  eapply Forall_impl; [|apply forward_scan_from].
  cbn. intros a Ha. lia.
Qed.

Lemma forward_scan_count (R : RegExp) (str : string) (fuel i : nat) :
  List.length (forward_scan fuel R str i) <= String.length str + 1 - i.
Proof.
  revert i. induction fuel as [|fuel IH]; intros i; cbn [forward_scan]; [cbn; lia|].
  destruct (Nat.ltb_spec (String.length str) i) as [|Hi]; [cbn; lia|].
  destruct (locate R str i) as [[j r]|] eqn:E; [|cbn; lia].
  apply locate_bounds in E; [|assumption].
  pose proof (behind_further str j r). pose proof (IH (behind str j r)).
  cbn [List.length]. lia.
Qed.

Lemma sorted_matches (l : list ExecArray) :
  StronglySorted
    (fun a b => exec_index a + String.length (exec_0 a) <= exec_index b) l ->
  StronglySorted before (map resultToMatch l).
Proof.
  induction 1 as [|a l Hl IH Ha]; cbn [map]; constructor; [assumption|].
  rewrite Forall_map. exact Ha.
Qed.

(** X9.  Whatever the budgets and the timing, the matches a consumer
    receives do not overlap: each one ends before every later one starts.
    And each of them lies within the subject, not before the position the
    regex stood at, carries the subject as its [input], and is the text the
    subject holds at its index. *)
Theorem matches_do_not_overlap (fuel : nat) (clock : nat -> sample) (n : nat)
    (it : Iterable) :
  global (regex it) = true ->
  let p := pull fuel clock n it (Symbol_iterator it) in
  StronglySorted before (yielded p)
  /\ Forall (fun m =>
               lastIndex (regex it) <= index m
               /\ index m + String.length (match_ m) <= String.length (string_ it)
               /\ input m = string_ it
               /\ String.substring (index m) (String.length (match_ m)) (input m)
                  = match_ m)
            (yielded p).
Proof.
  intros Hg. cbv zeta. unfold Symbol_iterator. rewrite (pull_start _ _ _ _ Hg).
  destruct (pull_prefix (regex it) (string_ it) clock Hg fuel n
              (lastIndex (regex it)) it (String.length (string_ it) + 1))
    as [k Hk]; [lia|].
  rewrite Hk. split.
  - apply StronglySorted_firstn, sorted_matches, forward_scan_apart.
  - apply Forall_firstn. rewrite Forall_map.
    eapply Forall_impl; [|apply forward_scan_within].
    cbn. intros a (H1 & H2 & H3 & H4). rewrite H3. auto.
Qed.

Lemma matches_do_not_overlap_witness :
  let it := mkIterable digits_g "a1 b22 c333" (Finite 10) PosInfinity in
  global (regex it) = true
  /\ StronglySorted before (yielded (spread steady 0 it))
  /\ List.length (yielded (spread steady 0 it)) = 3.
Proof.
  cbv zeta. split; [reflexivity|]. split; [|vm_compute; reflexivity].
  exact (proj1 (matches_do_not_overlap 13 steady 0
                  (mkIterable digits_g "a1 b22 c333" (Finite 10) PosInfinity)
                  eq_refl)).
Defined.

(** X10.  A consumer never receives more matches than the subject has
    positions from where the regex stood: at most one more than the number
    of characters left, however many times it calls [next()]. *)
Theorem matches_are_at_most_positions (fuel : nat) (clock : nat -> sample)
    (n : nat) (it : Iterable) :
  global (regex it) = true ->
  List.length (yielded (pull fuel clock n it (Symbol_iterator it)))
  <= String.length (string_ it) + 1 - lastIndex (regex it).
Proof.
  intros Hg. unfold Symbol_iterator. rewrite (pull_start _ _ _ _ Hg).
  destruct (pull_prefix (regex it) (string_ it) clock Hg fuel n
              (lastIndex (regex it)) it (String.length (string_ it) + 1))
    as [k Hk]; [lia|].
  rewrite Hk, length_firstn, length_map.
  pose proof (forward_scan_count (regex it) (string_ it)
                (String.length (string_ it) + 1) (lastIndex (regex it))).
  lia.
Qed.

Lemma matches_are_at_most_positions_witness :
  let it := mkIterable (Pattern.global_regex
                          (Pattern.Star (Pattern.Class (Pattern.char "a"))))
                       "bc" PosInfinity PosInfinity in
  global (regex it) = true
  /\ List.length (yielded (pull 100 steady 0 it (Symbol_iterator it))) <= 3
  /\ List.length (yielded (pull 100 steady 0 it (Symbol_iterator it))) = 3.
Proof.
  cbv zeta. split; [reflexivity|]. split; [|vm_compute; reflexivity].
  exact (matches_are_at_most_positions 100 steady 0
           (mkIterable (Pattern.global_regex
                          (Pattern.Star (Pattern.Class (Pattern.char "a"))))
                       "bc" PosInfinity PosInfinity)
           eq_refl).
Defined.



